(** * drycc/jsonschema: reference resolution and object-keyword validators

    A shallow embedding of [reference.go] and [val_object.go], followed by
    the properties established about them.

    Conventions of the embedding.
    - A Go [string] is a byte sequence: Rocq's [string].
    - A Go map that the code only indexes is a [gmap]; a Go map (or decoded
      JSON object) that the code ranges over is the list of its entries in
      the order the [range] statement visits them.  Go leaves that order
      unspecified, and statements quantify over every such list.
    - A [*Schema] stored in a map is an [option Schema]; [None] is [nil].
    - Functions of Go's standard library ([strings], [encoding/json]) are
      written out from their documented behaviour; what the repository
      takes from files outside [reference.go] and [val_object.go]
      (the [Schema] decoder, [Schema.Validate], [ParseWithCache]) and from
      [net/url], [net/http] and [regexp] enters as a class of operations. *)

From Stdlib Require Import Ascii String List Arith ZArith Lia Bool DecimalString
  DecimalZ.
From stdpp Require Import base option list strings gmap fin_maps.


(** ** Go's [strings] package *)

Module GoStrings.

(** [strings.HasPrefix(s, prefix)]. *)
Definition HasPrefix (s pre : string) : bool := String.prefix pre s.

(** [strings.TrimPrefix(s, prefix)]: [s] without the leading [prefix],
    or [s] itself when it does not start with [prefix]. *)
Definition TrimPrefix (s pre : string) : string :=
  if HasPrefix s pre
  then String.substring (String.length pre)
                        (String.length s - String.length pre) s
  else s.

(** [strings.HasSuffix(s, suffix)]. *)
Definition HasSuffix (s suf : string) : bool :=
  Nat.leb (String.length suf) (String.length s) &&
  String.eqb
    (String.substring (String.length s - String.length suf)
                      (String.length suf) s)
    suf.

(** [strings.TrimSuffix(s, suffix)]. *)
Definition TrimSuffix (s suf : string) : string :=
  if HasSuffix s suf
  then String.substring 0 (String.length s - String.length suf) s
  else s.

(** [strings.Contains(s, substr)]. *)
Fixpoint Contains (s sub : string) : bool :=
  HasPrefix s sub ||
  match s with
  | EmptyString => false
  | String _ r => Contains r sub
  end.

(** [strings.Split(s, sep)] for a separator of one byte: the pieces
    between consecutive separators, one more piece than there are
    separators; [Split "" sep] is the one-element list holding [""]. *)
Fixpoint Split (s : string) (sep : ascii) : list string :=
  match s with
  | EmptyString => [EmptyString]
  | String c r =>
      if Ascii.eqb c sep
      then EmptyString :: Split r sep
      else match Split r sep with
           | [] => [String c EmptyString]
           | p :: ps => String c p :: ps
           end
  end.

(** A [strings.Replacer] built by [strings.NewReplacer(old1, new1, ...)]
    is its list of pairs. *)
Definition Replacer : Type := list (string * string).

(** The comparison at one position of the target: the old strings are
    compared in argument order and the first that matches is taken. *)
Fixpoint lookup (r : Replacer) (s : string) : option (string * string) :=
  match r with
  | [] => None
  | (old, new) :: r' =>
      if HasPrefix s old then Some (old, new) else lookup r' s
  end.

(** [Replacer.Replace]: one pass over the target from left to right.
    Where an old string matches, its new string is written and the scan
    goes on behind the match (matches do not overlap and what was written
    is not scanned again); elsewhere the byte is copied.  [skip] counts
    the bytes of the current match still to be passed over.  All old
    strings are non-empty, as in every replacer the code builds. *)
Fixpoint Replace_from (r : Replacer) (skip : nat) (s : string) : string :=
  match s with
  | EmptyString => EmptyString
  | String c s' =>
      match skip with
      | S k => Replace_from r k s'
      | O =>
          match lookup r s with
          | Some (old, new) =>
              new +:+ Replace_from r (String.length old - 1) s'
          | None => String c (Replace_from r 0 s')
          end
      end
  end.

Definition Replace (r : Replacer) (s : string) : string :=
  Replace_from r 0 s.

(** [strings.ReplaceAll(s, old, new)], for a non-empty [old]. *)
Definition ReplaceAll (s old new : string) : string :=
  Replace [(old, new)] s.

End GoStrings.

(** ** Go's [strconv] package *)

Module strconv.

(** [strconv.ParseUint(s, 10, 64)] as far as its syntax goes: a non-empty
    string of decimal digits, and the number it writes. *)
Definition ParseUint (s : string) : option Z :=
  Z.of_uint <$> NilZero.uint_of_string s.

(** [strconv.ParseInt(s, 10, 64)]: an optional sign, then digits; [None]
    for a syntax error and for a value outside the 64-bit range. *)
Definition ParseInt (s : string) : option Z :=
  match s with
  | EmptyString => None
  | String c r =>
      let '(neg, body) :=
        if Ascii.eqb c "+" then (false, r)
        else if Ascii.eqb c "-" then (true, r)
        else (false, s) in
      match ParseUint body with
      | None => None
      | Some un =>
          if neg
          then if (un <=? 2 ^ 63)%Z then Some (- un)%Z else None
          else if (un <? 2 ^ 63)%Z then Some un else None
      end
  end.

End strconv.

(** ** Go maps that are ranged over *)

Module GoMap.
Section Assoc.
Context {A : Type}.

(** [m[k]] with the comma-ok form: the value of the entry for [k]. *)
Fixpoint get (k : string) (m : list (string * A)) : option A :=
  match m with
  | [] => None
  | (k', a) :: m' => if String.eqb k k' then Some a else get k m'
  end.

(** [m[k] = a]: the entry for [k] is overwritten where it stands, a new
    key gets a new entry. *)
Fixpoint set (k : string) (a : A) (m : list (string * A))
  : list (string * A) :=
  match m with
  | [] => [(k, a)]
  | (k', a') :: m' =>
      if String.eqb k k' then (k, a) :: m' else (k', a') :: set k a m'
  end.

Definition has (k : string) (m : list (string * A)) : bool :=
  match get k m with Some _ => true | None => false end.

Definition keys (m : list (string * A)) : list string := map fst m.
End Assoc.

(** A map built inside a function is a [gmap]; the order in which a
    [range] statement then visits it is chosen by the Go runtime.  The
    choice is a parameter: some enumeration of the entries. *)
Class RangeOrder := {
  range : forall {A : Type}, gmap string A -> list (string * A);
  range_perm : forall (A : Type) (m : gmap string A),
      range m ≡ₚ map_to_list m
}.
End GoMap.

(** ** JSON values and [encoding/json] *)

(** Go's [error], by its message. *)
Definition error : Type := string.

#[warnings="-register-all"]
Inductive JSON : Type :=
| JNull
| JBool (b : bool)
| JNumber (literal : string)
| JString (s : string)
| JArray (elems : list JSON)
| JObject (members : list (string * JSON)).

(** The same type serves for a [json.RawMessage] (members in document
    order) and for a decoded instance, Go's [interface{}] holding [nil], a
    [bool], a [float64], a [string], a [[]interface{}] or a
    [map[string]interface{}] (entries in the order [range] visits them,
    keys distinct).  No function here inspects a number. *)

Module json.

(** The word [encoding/json] uses for a value in an
    [UnmarshalTypeError]. *)
Definition kind (b : JSON) : string :=
  match b with
  | JNull => "null"
  | JBool _ => "bool"
  | JNumber _ => "number"
  | JString _ => "string"
  | JArray _ => "array"
  | JObject _ => "object"
  end.

Definition UnmarshalTypeError (b : JSON) (gotype : string) : error :=
  "json: cannot unmarshal " +:+ kind b +:+
  " into Go value of type " +:+ gotype.

(** [json.Unmarshal(b, &x)] for [x bool]: the value after the call and
    the error.  [null] leaves [x] alone and is no error. *)
Definition Unmarshal_bool (b : JSON) (x : bool) : bool * option error :=
  match b with
  | JBool v => (v, None)
  | JNull => (x, None)
  | _ => (x, Some (UnmarshalTypeError b "bool"))
  end.

Section Unmarshaler.
(** A type [T] with an [UnmarshalJSON] method on [*T]: the receiver
    before the call, the receiver after it and the error. *)
Context {T : Type} (zero : T)
        (UnmarshalJSON : JSON -> T -> T * option error).

(** [json.Unmarshal(b, &x)] for [x *T]: [null] makes [x] nil; any
    other value is handed to [UnmarshalJSON] on [*x], allocated first
    when [x] is nil.  The pointer stays set when the method fails. *)
Definition Unmarshal_ptr (b : JSON) (x : option T)
  : option T * option error :=
  match b with
  | JNull => (None, None)
  | _ => let '(t, err) := UnmarshalJSON b (default zero x) in
         (Some t, err)
  end.

(** The elements of a JSON array into a [[]*T]: [None] where an
    element's method failed (decoding stops there). *)
Fixpoint elems_ptr (l : list JSON) : list (option T) + error :=
  match l with
  | [] => inl []
  | b :: l' =>
      match Unmarshal_ptr b None with
      | (_, Some err) => inr err
      | (x, None) =>
          match elems_ptr l' with
          | inl xs => inl (x :: xs)
          | inr err => inr err
          end
      end
  end.

(** [json.Unmarshal(b, &x)] for a nil [x []*T]. *)
Definition Unmarshal_slice_ptr (gotype : string) (b : JSON)
  : list (option T) + error :=
  match b with
  | JNull => inl []
  | JArray l => elems_ptr l
  | _ => inr (UnmarshalTypeError b gotype)
  end.

(** The members of a JSON object into a [map[string]*T], in document
    order; a repeated key keeps its last value. *)
Fixpoint members_ptr (l : list (string * JSON)) (m : gmap string (option T))
  : gmap string (option T) + error :=
  match l with
  | [] => inl m
  | (k, b) :: l' =>
      match Unmarshal_ptr b None with
      | (_, Some err) => inr err
      | (x, None) => members_ptr l' (<[k := x]> m)
      end
  end.

(** [json.Unmarshal(b, &x)] for a nil [x map[string]*T]. *)
Definition Unmarshal_map_ptr (gotype : string) (b : JSON)
  : gmap string (option T) + error :=
  match b with
  | JNull => inl ∅
  | JObject l => members_ptr l ∅
  | _ => inr (UnmarshalTypeError b gotype)
  end.

(** The same for a [map[string]T]: every member, [null] included, goes
    through [UnmarshalJSON] on a zero [T]. *)
Fixpoint members_val (l : list (string * JSON)) (m : gmap string T)
  : gmap string T + error :=
  match l with
  | [] => inl m
  | (k, b) :: l' =>
      match UnmarshalJSON b zero with
      | (_, Some err) => inr err
      | (t, None) => members_val l' (<[k := t]> m)
      end
  end.

(** [json.Unmarshal(b, &x)] for a nil [x map[string]T]. *)
Definition Unmarshal_map_val (gotype : string) (b : JSON)
  : gmap string T + error :=
  match b with
  | JNull => inl ∅
  | JObject l => members_val l ∅
  | _ => inr (UnmarshalTypeError b gotype)
  end.
End Unmarshaler.

(** [json.Unmarshal(b, &x)] for [x int]: the literal has to be an integer
    in range; [null] leaves [x] alone. *)
Definition Unmarshal_int (b : JSON) (x : Z) : Z * option error :=
  match b with
  | JNull => (x, None)
  | JNumber literal =>
      match strconv.ParseInt literal with
      | Some n => (n, None)
      | None =>
          (x, Some ("json: cannot unmarshal number " +:+ literal +:+
                    " into Go value of type int"))
      end
  | _ => (x, Some (UnmarshalTypeError b "int"))
  end.

(** The elements of a JSON array into a [[]string]: a string gives
    itself, [null] the empty string; any other element is an error, which
    [Unmarshal] reports once it has gone through the array. *)
Fixpoint elems_string (l : list JSON) : list string + error :=
  match l with
  | [] => inl []
  | b :: l' =>
      match b with
      | JString x =>
          match elems_string l' with
          | inl xs => inl (x :: xs)
          | inr err => inr err
          end
      | JNull =>
          match elems_string l' with
          | inl xs => inl (EmptyString :: xs)
          | inr err => inr err
          end
      | _ => inr (UnmarshalTypeError b "string")
      end
  end.

(** [json.Unmarshal(b, &x)] for a nil [x []string]: the slice, or the
    error. *)
Definition Unmarshal_strings (b : JSON) : list string + error :=
  match b with
  | JNull => inl []
  | JArray l => elems_string l
  | _ => inr (UnmarshalTypeError b "[]string")
  end.

(** The members of a JSON object into a [map[string]json.RawMessage], in
    document order; a repeated key keeps its last value. *)
Definition members_raw (l : list (string * JSON)) (m : gmap string JSON)
  : gmap string JSON :=
  fold_left (fun m '(k, b) => <[k := b]> m) l m.

(** [json.Unmarshal(b, &x)] for a nil [x map[string]json.RawMessage]. *)
Definition Unmarshal_raw_map (b : JSON) : gmap string JSON + error :=
  match b with
  | JNull => inl ∅
  | JObject l => inl (members_raw l ∅)
  | _ => inr (UnmarshalTypeError b "map[string]json.RawMessage")
  end.

Section UnmarshalInto.
Context {T : Type} (zero : T)
        (UnmarshalJSON : JSON -> T -> T * option error).

(** The members of a JSON object into a [map[string]T] that may hold
    entries already: the map when decoding stops, and the error that
    stopped it. *)
Fixpoint members_into (l : list (string * JSON)) (m : gmap string T)
  : gmap string T * option error :=
  match l with
  | [] => (m, None)
  | (k, b) :: l' =>
      match UnmarshalJSON b zero with
      | (_, Some err) => (m, Some err)
      | (t, None) => members_into l' (<[k := t]> m)
      end
  end.

(** [json.Unmarshal(b, &x)] for [x map[string]T]: [null] makes [x] nil, an
    object adds its members to [x], anything else leaves [x] alone. *)
Definition Unmarshal_map_into (gotype : string) (b : JSON) (x : gmap string T)
  : gmap string T * option error :=
  match b with
  | JNull => (∅, None)
  | JObject l => members_into l x
  | _ => (x, Some (UnmarshalTypeError b gotype))
  end.
End UnmarshalInto.
End json.

(** ** What the two files take from the rest of the program *)

(** [ValidationError], a struct whose one field is the message. *)
Record ValidationError : Type := { Description : string }.

(** [strconv.Itoa] and the [%d] verb of [fmt.Sprintf]. *)
Definition Itoa (n : Z) : string := NilZero.string_of_int (Z.to_int n).

(** [val_object.go] uses a [Schema] through three things only: its zero
    value, its JSON decoder and its [Validate] method. *)
Class SchemaAPI (Schema : Type) := {
  Schema_zero : Schema;
  Schema_UnmarshalJSON : JSON -> Schema -> Schema * option error;
  Schema_Validate : Schema -> JSON -> list ValidationError
}.

(** [regexp.Compile] and [Regexp.MatchString]. *)
Class RegexpAPI (Regexp : Type) := {
  regexp_Compile : string -> Regexp + error;
  regexp_MatchString : Regexp -> string -> bool
}.

(** ** [val_object.go] *)

Module dependencies.
Section Defs.
Context {Schema : Type} `{!SchemaAPI Schema}.

(** [propertySet] is [map[string]struct{}]: its keys. *)
Record t : Type := {
  schemaDeps : list (string * Schema);
  propertyDeps : list (string * list string)
}.

Definition Validate (d : t) (v : JSON) : list ValidationError :=
  match v with
  | JObject val =>
      let valErrs : list ValidationError := [] in
      (* Handle schema dependencies. *)
      let valErrs :=
        fold_left
          (fun valErrs '(key, schema) =>
             if GoMap.has key val
             then valErrs ++ Schema_Validate schema v
             else valErrs)
          (schemaDeps d) valErrs in
      (* Handle property dependencies. *)
      fold_left
        (fun valErrs '(key, set) =>
           if GoMap.has key val
           then fold_left
                  (fun valErrs a =>
                     if GoMap.has a val then valErrs
                     else valErrs ++
                          [{| Description :=
                               "instance does not have a property with the name "
                               +:+ a |}])
                  set valErrs
           else valErrs)
        (propertyDeps d) valErrs
  | _ => []
  end.
End Defs.
Arguments t : clear implicits.

Section Decode.
Context {Schema : Type} `{!SchemaAPI Schema} `{!GoMap.RangeOrder}.

(** The first loop of [UnmarshalJSON]: the members that decode as a
    schema. *)
Definition decode_schemaDeps (c : gmap string JSON) : gmap string Schema :=
  omap (fun v => match Schema_UnmarshalJSON v Schema_zero with
                 | (s, None) => Some s
                 | (_, Some _) => None
                 end) c.

(** The second loop: the members that decode as a list of strings, each
    with the set of these strings. *)
Definition decode_propertyDeps (c : gmap string JSON)
  : gmap string (gmap string ()) :=
  omap (fun v => match json.Unmarshal_strings v with
                 | inl props =>
                     Some (fold_left (fun set p => <[p := tt]> set) props ∅)
                 | inr _ => None
                 end) c.

(** [UnmarshalJSON]: the receiver after the call, its maps in the order
    ranges will visit them, and the error.  Both maps are made anew even
    when the call ends with the error that neither holds an entry. *)
Definition UnmarshalJSON (b : JSON) (d : t Schema) : t Schema * option error :=
  match json.Unmarshal_raw_map b with
  | inr err => (d, Some err)
  | inl c =>
      let schemaDeps := decode_schemaDeps c in
      let propertyDeps := decode_propertyDeps c in
      let d' :=
        {| schemaDeps := GoMap.range schemaDeps;
           propertyDeps :=
             GoMap.range ((fun set => map fst (GoMap.range set))
                            <$> propertyDeps) |} in
      if (size propertyDeps =? 0) && (size schemaDeps =? 0)
      then (d', Some "no valid schema or property dependency validators")
      else (d', None)
  end.
End Decode.
End dependencies.

Module maxProperties.
(** [type maxProperties int]. *)
Definition t : Type := Z.

Definition Validate (m : t) (v : JSON) : list ValidationError :=
  match v with
  | JObject val =>
      let len := Z.of_nat (length val) in
      if (len >? m)%Z
      then [{| Description :=
                "Object has more properties than maxProperties (" +:+
                Itoa len +:+ " > " +:+ Itoa m +:+ ")" |}]
      else []
  | _ => []
  end.

(** [UnmarshalJSON]: the receiver after the call and the error. *)
Definition UnmarshalJSON (b : JSON) (m : t) : t * option error :=
  match json.Unmarshal_int b 0%Z with
  | (_, Some err) => (m, Some err)
  | (n, None) =>
      if (n <? 0)%Z
      then (m, Some "maxProperties cannot be smaller than zero")
      else (n, None)
  end.
End maxProperties.

Module minProperties.
(** [type minProperties int]. *)
Definition t : Type := Z.

Definition Validate (m : t) (v : JSON) : list ValidationError :=
  match v with
  | JObject val =>
      let len := Z.of_nat (length val) in
      if (len <? m)%Z
      then [{| Description :=
                "Object has fewer properties than minProperties (" +:+
                Itoa len +:+ " < " +:+ Itoa m +:+ ")" |}]
      else []
  | _ => []
  end.

(** [UnmarshalJSON]: the receiver after the call and the error. *)
Definition UnmarshalJSON (b : JSON) (m : t) : t * option error :=
  match json.Unmarshal_int b 0%Z with
  | (_, Some err) => (m, Some err)
  | (n, None) =>
      if (n <? 0)%Z
      then (m, Some "minProperties cannot be smaller than zero")
      else (n, None)
  end.
End minProperties.

Record regexpToSchema (Regexp Schema : Type) : Type := {
  regexp : Regexp;
  schema : Schema
}.
Arguments regexp {Regexp Schema} _.
Arguments schema {Regexp Schema} _.
Arguments Build_regexpToSchema {Regexp Schema} _ _.

Module patternProperties.
Section Defs.
Context {Schema : Type} `{!SchemaAPI Schema}.
Context {Regexp : Type} `{!RegexpAPI Regexp}.
Context `{!GoMap.RangeOrder}.

Record t : Type := { object : list (regexpToSchema Regexp Schema) }.

(** The zero value: a nil slice. *)
Definition zero : t := {| object := [] |}.

(** The inner loop of [Validate], shared in shape with the one of
    [properties.Validate]: every entry whose pattern matches the key
    validates the value. *)
Definition Validate_key (p : t) (dataKey : string) (dataVal : JSON)
           (valErrs : list ValidationError) : list ValidationError :=
  fold_left
    (fun valErrs val =>
       if regexp_MatchString (regexp val) dataKey
       then valErrs ++ Schema_Validate (schema val) dataVal
       else valErrs)
    (object p) valErrs.

Definition Validate (p : t) (v : JSON) : list ValidationError :=
  match v with
  | JObject data =>
      fold_left
        (fun valErrs '(dataKey, dataVal) =>
           Validate_key p dataKey dataVal valErrs)
        data []
  | _ => []
  end.

Definition SetSchema (p : t) (v : gmap string JSON) : t * option error :=
  match v !! "properties" with
  | Some _ => (p, Some "superseded by 'properties' neighbor")
  | None => (p, None)
  end.

(** The loop of [UnmarshalJSON] over the decoded map, in the order the
    range visits it: the first key that does not compile ends it with
    the compiler's error, the entries appended before stay appended. *)
Fixpoint compile_entries (m : list (string * Schema)) (p : t)
  : t * option error :=
  match m with
  | [] => (p, None)
  | (key, val) :: m' =>
      match regexp_Compile key with
      | inr err => (p, Some err)
      | inl r =>
          compile_entries m'
            {| object := object p ++ [Build_regexpToSchema r val] |}
      end
  end.

Definition UnmarshalJSON (b : JSON) (p : t) : t * option error :=
  match json.Unmarshal_map_val Schema_zero Schema_UnmarshalJSON
          "map[string]jsonschema.Schema" b with
  | inr err => (p, Some err)
  | inl m => compile_entries (GoMap.range m) p
  end.
End Defs.
Arguments t : clear implicits.
End patternProperties.

Module properties.
Section Defs.
Context {Schema : Type} `{!SchemaAPI Schema}.
Context {Regexp : Type} `{!RegexpAPI Regexp}.
Context `{!GoMap.RangeOrder}.

Record t : Type := {
  object : gmap string Schema;
  patternProperties : option (patternProperties.t Schema Regexp);
  additionalPropertiesBool : bool;
  additionalPropertiesObject : option Schema
}.

(** Lines 195 to 208 of the loop body: the exact match against
    [object], then every pattern; the errors so far and [match]. *)
Definition match_key (p : t) (dataKey : string) (dataVal : JSON)
           (valErrs : list ValidationError)
  : list ValidationError * bool :=
  let '(valErrs, match_) :=
    match object p !! dataKey with
    | Some schema => (valErrs ++ Schema_Validate schema dataVal, true)
    | None => (valErrs, false)
    end in
  match patternProperties p with
  | Some pp =>
      fold_left
        (fun '(valErrs, match_) val =>
           if regexp_MatchString (regexp val) dataKey
           then (valErrs ++ Schema_Validate (schema val) dataVal, true)
           else (valErrs, match_))
        (patternProperties.object pp) (valErrs, match_)
  | None => (valErrs, match_)
  end.

(** Lines 209 to 218: what becomes of a key once [match] is known.
    For a key the boolean form forbids, [append] is called with the
    new one-element slice alone, and [valErrs] becomes that slice. *)
Definition additional (p : t) (dataVal : JSON)
           (st : list ValidationError * bool) : list ValidationError :=
  let '(valErrs, match_) := st in
  if match_ then valErrs
  else match additionalPropertiesObject p with
       | Some s => valErrs ++ Schema_Validate s dataVal
       | None =>
           if negb (additionalPropertiesBool p)
           then [{| Description := "Additional properties aren't allowed" |}]
           else valErrs
       end.

Definition Validate_key (p : t) (dataKey : string) (dataVal : JSON)
           (valErrs : list ValidationError) : list ValidationError :=
  additional p dataVal (match_key p dataKey dataVal valErrs).

Definition Validate (p : t) (v : JSON) : list ValidationError :=
  match v with
  | JObject dataMap =>
      fold_left
        (fun valErrs '(dataKey, dataVal) =>
           Validate_key p dataKey dataVal valErrs)
        dataMap []
  | _ => []
  end.

(** [UnmarshalJSON]: [json.Unmarshal] into the [object] field. *)
Definition UnmarshalJSON (b : JSON) (p : t) : t * option error :=
  let '(object', err) :=
    json.Unmarshal_map_into Schema_zero Schema_UnmarshalJSON
      "map[string]jsonschema.Schema" b (object p) in
  ({| object := object';
      patternProperties := patternProperties p;
      additionalPropertiesBool := additionalPropertiesBool p;
      additionalPropertiesObject := additionalPropertiesObject p |},
   err).

Definition SetSchema (p : t) (v : gmap string JSON) : t * option error :=
  let pp :=
    match v !! "patternProperties" with
    | Some val =>
        fst (json.Unmarshal_ptr patternProperties.zero
               patternProperties.UnmarshalJSON val (patternProperties p))
    | None => patternProperties p
    end in
  match v !! "additionalProperties" with
  | None =>
      ({| object := object p;
          patternProperties := pp;
          additionalPropertiesBool := true;
          additionalPropertiesObject := additionalPropertiesObject p |},
       None)
  | Some addVal =>
      let '(b, _) := json.Unmarshal_bool addVal true in
      let o :=
        match json.Unmarshal_ptr Schema_zero Schema_UnmarshalJSON addVal
                (additionalPropertiesObject p) with
        | (_, Some _) => None
        | (o, None) => o
        end in
      ({| object := object p;
          patternProperties := pp;
          additionalPropertiesBool := b;
          additionalPropertiesObject := o |},
       None)
  end.
End Defs.
Arguments t : clear implicits.
End properties.

Module required.
(** [type required map[string]struct{}]: its keys. *)
Definition t : Type := list string.

Definition Validate (r : t) (v : JSON) : list ValidationError :=
  match v with
  | JObject data =>
      fold_left
        (fun valErrs key =>
           if GoMap.has key data then valErrs
           else valErrs ++
                [{| Description :=
                     "Required error. The data must be an object with " +:+
                     key +:+ " as one of its keys" |}])
        r []
  | _ => []
  end.

(** The map that [UnmarshalJSON] makes of the decoded list. *)
Definition make_set (l : list string) : gmap string () :=
  fold_left (fun r val => <[val := tt]> r) l ∅.

(** [UnmarshalJSON]: the receiver after the call, its keys in the order a
    range will visit them, and the error. *)
Definition UnmarshalJSON `{!GoMap.RangeOrder} (b : JSON) (r : t)
  : t * option error :=
  match json.Unmarshal_strings b with
  | inr err => (r, Some err)
  | inl l => (map fst (GoMap.range (make_set l)), None)
  end.
End required.

(** ** [reference.go] *)

(** How a call ends: it returns, it panics (a nil pointer is
    dereferenced), or the model's fuel is used up before it returns. *)
Inductive outcome (A : Type) : Type :=
| Done (a : A)
| Panic
| OutOfFuel.
Arguments Done {A} _.
Arguments Panic {A}.
Arguments OutOfFuel {A}.

#[export] Instance outcome_ret : MRet outcome := fun A a => Done a.
#[export] Instance outcome_bind : MBind outcome := fun A B f x =>
  match x with
  | Done a => f a
  | Panic => Panic
  | OutOfFuel => OutOfFuel
  end.

(** The dynamic type of a node's [Validator]: a [*ref], whose value is the
    reference string, or anything else. *)
Inductive Validator (V : Type) : Type :=
| ref (r : string)
| other (v : V).
Arguments ref {V} _.
Arguments other {V} _.

(** [Node] embeds [EmbeddedSchemas] and holds a [Validator]. *)
Record Node (V S : Type) : Type := {
  EmbeddedSchemas : list (string * option S);
  Validator_ : Validator V
}.
Arguments EmbeddedSchemas {V S} _.
Arguments Validator_ {V S} _.
Arguments Build_Node {V S} _ _.

(** [Schema].  The pointers held in [EmbeddedSchemas] are owned by the
    map that holds them (the decoder allocates one [Schema] per JSON
    value), so a schema is the tree of the values they point to.  The
    [Cache] field is a reference to the one map that the root and every
    document loaded for it share; it lives in the [World]. *)
#[warnings="-register-all"]
Inductive Schema (V : Type) : Type :=
  Build_Schema (nodes : list (string * Node V (Schema V))) (resolved : bool).
Arguments Build_Schema {V} _ _.

Definition nodes {V} (s : Schema V) : list (string * Node V (Schema V)) :=
  match s with Build_Schema ns _ => ns end.
Definition resolved {V} (s : Schema V) : bool :=
  match s with Build_Schema _ r => r end.

(** [new(Schema)]. *)
Definition new_Schema {V} : Schema V := Build_Schema [] false.

(** What [url.Parse] yields, as far as [refToSchema] looks at it. *)
Record URL : Type := { Scheme : string; Fragment : string }.

(** [URL.IsAbs]. *)
Definition IsAbs (u : URL) : bool := negb (String.eqb (Scheme u) "").

(** The state outside the schema tree: the shared cache of external
    documents, and the URLs that [refToSchema] has passed to [http.Get],
    oldest first. *)
Record World (V : Type) : Type := {
  Cache : gmap string (Schema V);
  fetched : list string
}.
Arguments Cache {V} _.
Arguments fetched {V} _.
Arguments Build_World {V} _ _.

(** What [reference.go] calls outside itself.  [url_Parse] is [None] when
    [url.Parse] returns an error.  [http_Get] is the body the network
    gives for a URL after the requests made so far, [None] when [http.Get]
    returns an error.  [ParseWithCache] decodes a body with a cache at
    hand: its result and the cache after the call. *)
Class RefAPI (V : Type) := {
  url_Parse : string -> option URL;
  http_Get : list string -> string -> option string;
  ParseWithCache : string -> bool -> gmap string (Schema V)
                   -> (Schema V + error) * gmap string (Schema V);
  Schema_decode : JSON -> Schema V -> Schema V * option error
}.

Section Reference.
Context {V : Type} `{!RefAPI V} `{!GoMap.RangeOrder}.

Abbreviation Schema := (Schema V).
Abbreviation Node := (Node V Schema).
Abbreviation World := (World V).

(** [type EmbeddedSchemas map[string]*Schema]. *)
Definition EmbeddedSchemas_t : Type := list (string * option Schema).

Definition EmbeddedSchemas_UnmarshalArray (b : JSON) (e : EmbeddedSchemas_t)
  : EmbeddedSchemas_t * option error :=
  match json.Unmarshal_slice_ptr new_Schema Schema_decode
          "[]*jsonschema.Schema" b with
  | inr err => (e, Some err)
  | inl schemas =>
      (fold_left
         (fun e '(i, v) => GoMap.set (Itoa (Z.of_nat i)) v e)
         (imap (fun i v => (i, v)) schemas) e,
       None)
  end.

Definition EmbeddedSchemas_UnmarshalObject (b : JSON) (e : EmbeddedSchemas_t)
  : EmbeddedSchemas_t * option error :=
  match json.Unmarshal_map_ptr new_Schema Schema_decode
          "map[string]*jsonschema.Schema" b with
  | inr err => (e, Some err)
  | inl m =>
      (fold_left (fun e '(k, v) => GoMap.set k v e) (GoMap.range m) e, None)
  end.

Definition EmbeddedSchemas_UnmarshalSingle (b : JSON) (e : EmbeddedSchemas_t)
  : EmbeddedSchemas_t * option error :=
  match Schema_decode b new_Schema with
  | (_, Some err) => (e, Some err)
  | (s, None) => (GoMap.set "" (Some s) e, None)
  end.

(** The receiver's old value is dropped: [*e] starts as an empty map. *)
Definition EmbeddedSchemas_UnmarshalJSON (b : JSON)
  : EmbeddedSchemas_t * option error :=
  let e : EmbeddedSchemas_t := [] in
  let '(e, err1) := EmbeddedSchemas_UnmarshalArray b e in
  let '(e, err2) := EmbeddedSchemas_UnmarshalObject b e in
  let '(e, err3) := EmbeddedSchemas_UnmarshalSingle b e in
  match err1, err2, err3 with
  | Some _, Some _, Some _ => (e, Some "no valid embedded schemas")
  | _, _, _ => (e, None)
  end.

(** [hasRef]: the reference string of the first node, in the order of
    the range, whose validator is a [*ref]. *)
Fixpoint hasRef_nodes (ns : list (string * Node)) : option string :=
  match ns with
  | [] => None
  | (_, n) :: ns' =>
      match Validator_ n with
      | ref r => Some r
      | other _ => hasRef_nodes ns'
      end
  end.

Definition hasRef (s : Schema) : option string := hasRef_nodes (nodes s).

(** The result of [resolveLocalPath] and [refToSchema]: the pointer and
    the error. *)
Definition result : Type := option Schema * option error.

Definition resolveLocalPath (split : list string) (rootSchema : Schema)
           (str : string) : result :=
  let failed : result :=
    (Some new_Schema, Some ("failed to resolve " +:+ str)) in
  match length split with
  | 1 =>
      if String.eqb (nth 0 split "") "" then (Some rootSchema, None)
      else match GoMap.get (nth 0 split "") (nodes rootSchema) with
           | None => failed
           | Some v =>
               match GoMap.get "" (EmbeddedSchemas v) with
               | Some s => (s, None)
               | None => failed
               end
           end
  | 2 =>
      match GoMap.get (nth 0 split "") (nodes rootSchema) with
      | None => failed
      | Some v =>
          match GoMap.get (nth 1 split "") (EmbeddedSchemas v) with
          | Some s => (s, None)
          | None => failed
          end
      end
  | _ => failed
  end.

(** The replacer of line 140. *)
Definition unescape : GoStrings.Replacer :=
  [("~0", "~"); ("~1", "/"); ("%25", "%")].

(** Lines 134 and 135: the prefix is removed from an internal URI. *)
Definition trim_ref (str : string) : string :=
  GoStrings.TrimPrefix (GoStrings.TrimPrefix str "#") "/".

(** Lines 137 to 142: [split] after the replacements, from the trimmed
    string. *)
Definition split_ref (str : string) : list string :=
  map (GoStrings.Replace unescape) (GoStrings.Split str "/").

(** Lines 133 to 144, the part of [refToSchema] behind the handling of
    an absolute URI. *)
Definition refToSchema_local (str : string) (rootSchema : Schema) : result :=
  let str := trim_ref str in
  resolveLocalPath (split_ref str) rootSchema str.

Definition refToSchema (str : string) (rootSchema : Schema)
           (loadExternal : bool) (w : World) : result * World :=
  match url_Parse str with
  | Some url =>
      if IsAbs url then
        let cacheKey := GoStrings.TrimSuffix str (Fragment url) in
        match Cache w !! cacheKey with
        | Some cachedSchema =>
            (refToSchema_local (Fragment url) cachedSchema, w)
        | None =>
            (* Handle external URIs. *)
            if negb loadExternal
            then ((Some new_Schema, Some "external schemas are disabled"), w)
            else
              let w1 := {| Cache := Cache w;
                           fetched := fetched w ++ [str] |} in
              match http_Get (fetched w) str with
              | None => ((Some new_Schema, Some "bad external url"), w1)
              | Some body =>
                  match ParseWithCache body loadExternal (Cache w1) with
                  | (inr _, cache) =>
                      ((Some new_Schema, Some "error parsing external doc"),
                       {| Cache := cache; fetched := fetched w1 |})
                  | (inl s, cache) =>
                      (refToSchema_local (Fragment url) s,
                       {| Cache := <[cacheKey := s]> cache;
                          fetched := fetched w1 |})
                  end
              end
        end
      else (refToSchema_local str rootSchema, w)
  | None => (refToSchema_local str rootSchema, w)
  end.

(** [resolveSelf] on a non-nil receiver: the receiver's value and the
    world after the call.  An error of [refToSchema] ends the call; a nil
    pointer without an error is dereferenced by [*s = *sch]; otherwise the
    receiver takes the value of the target and the call starts over,
    which need not end: the fuel counts these rounds.  The assignment
    copies the struct, so the receiver and the target share afterwards
    the sub-schemas they embed; the tree keeps them as two equal
    subtrees, and [rootSchema] is the value the root had when
    [resolveRefs] copied it.  The statements below are about a failed
    resolution and about trees without references, where nothing is
    copied. *)
Fixpoint resolveSelf (fuel : nat) (rootSchema : Schema)
         (loadExternal : bool) (s : Schema) (w : World)
  : outcome (Schema * World) :=
  match fuel with
  | O => OutOfFuel
  | S fuel' =>
      match hasRef s with
      | Some str =>
          match refToSchema str rootSchema loadExternal w with
          | ((_, Some _), w') => Done (s, w')
          | ((None, None), _) => Panic
          | ((Some sch, None), w') =>
              resolveSelf fuel' rootSchema loadExternal sch w'
          end
      | None => Done (s, w)
      end
  end.

(** A range whose body updates, in place, what the entries point to. *)
Fixpoint range_update {A : Type} (f : A -> World -> outcome (A * World))
         (m : list (string * A)) (w : World)
  : outcome (list (string * A) * World) :=
  match m with
  | [] => Done ([], w)
  | (k, a) :: m' =>
      '(a', w1) ← f a w;
      '(m'', w2) ← range_update f m' w1;
      Done ((k, a') :: m'', w2)
  end.

(** [resolveBelow], given what [resolveSelfAndBelow] does to the
    sub-schemas.  On a nil sub-schema the call reaches [s.nodes] in
    [hasRef] and panics. *)
Definition resolveBelow_with
           (below : Schema -> World -> outcome (Schema * World))
           (s : Schema) (w : World) : outcome (Schema * World) :=
  if resolved s then Done (s, w)
  else
    '(ns, w') ←
      range_update
        (fun (n : Node) w =>
           '(es, w') ←
             range_update
               (fun (sch : option Schema) w =>
                  match sch with
                  | None => Panic
                  | Some c => '(c', w') ← below c w; Done (Some c', w')
                  end)
               (EmbeddedSchemas n) w;
           Done (Build_Node es (Validator_ n), w'))
        (nodes s) w;
    Done (Build_Schema ns true, w').

Fixpoint resolveSelfAndBelow (fuel : nat) (rootSchema : Schema)
         (loadExternal : bool) (s : Schema) (w : World)
  : outcome (Schema * World) :=
  match fuel with
  | O => OutOfFuel
  | S fuel' =>
      '(s1, w1) ← resolveSelf fuel' rootSchema loadExternal s w;
      resolveBelow_with
        (resolveSelfAndBelow fuel' rootSchema loadExternal) s1 w1
  end.

Definition resolveBelow (fuel : nat) (rootSchema : Schema)
           (loadExternal : bool) (s : Schema) (w : World)
  : outcome (Schema * World) :=
  resolveBelow_with (resolveSelfAndBelow fuel rootSchema loadExternal) s w.

(** [resolveRefs]: the root is also the [rootSchema] of every call. *)
Definition resolveRefs (fuel : nat) (loadExternal : bool) (s : Schema)
           (w : World) : outcome (Schema * World) :=
  resolveSelfAndBelow fuel s loadExternal s w.

End Reference.

(** ** Vocabulary of the statements *)

(** The type assertion [v.(map[string]interface{})] succeeds. *)
Definition is_object (v : JSON) : bool :=
  match v with JObject _ => true | _ => false end.

(** The one error of a key that [additionalProperties: false] forbids. *)
Definition not_allowed : ValidationError :=
  {| Description := "Additional properties aren't allowed" |}.

Section PropertiesVocabulary.
Context {Schema : Type} `{!SchemaAPI Schema}.
Context {Regexp : Type} `{!RegexpAPI Regexp}.

(** The errors of the value under the schema that [properties] names
    for the key, if it names one. *)
Definition exact_errors (p : properties.t Schema Regexp)
           (dataKey : string) (dataVal : JSON) : list ValidationError :=
  match properties.object p !! dataKey with
  | Some schema => Schema_Validate schema dataVal
  | None => []
  end.

(** The [patternProperties] entries whose pattern matches the key. *)
Definition matching_patterns (p : properties.t Schema Regexp)
           (dataKey : string) : list (regexpToSchema Regexp Schema) :=
  match properties.patternProperties p with
  | Some pp =>
      List.filter (fun val => regexp_MatchString (regexp val) dataKey)
                  (patternProperties.object pp)
  | None => []
  end.

(** The errors of the value under each of them, in their order. *)
Definition pattern_errors (p : properties.t Schema Regexp)
           (dataKey : string) (dataVal : JSON) : list ValidationError :=
  flat_map (fun val => Schema_Validate (schema val) dataVal)
           (matching_patterns p dataKey).

(** The key has an entry in [properties] or matches a pattern. *)
Definition matched (p : properties.t Schema Regexp) (dataKey : string)
  : bool :=
  match properties.object p !! dataKey with Some _ => true | None => false end
  || match matching_patterns p dataKey with [] => false | _ :: _ => true end.
End PropertiesVocabulary.

(** The unescaping of a pointer segment as the specification words it:
    the three replacements one after the other, each over the whole
    segment. *)
Definition unescape_in_order (seg : string) : string :=
  GoStrings.ReplaceAll
    (GoStrings.ReplaceAll (GoStrings.ReplaceAll seg "~0" "~") "~1" "/")
    "%25" "%".

(** Its three passes, and the single pass of the code. *)
Definition pass0 (s : string) : string := GoStrings.ReplaceAll s "~0" "~".
Definition pass1 (s : string) : string := GoStrings.ReplaceAll s "~1" "/".
Definition pass25 (s : string) : string := GoStrings.ReplaceAll s "%25" "%".
Definition single_pass (s : string) : string := GoStrings.Replace unescape s.

(** The first byte of a string. *)
Definition first_byte (s : string) : option ascii :=
  match s with EmptyString => None | String c _ => Some c end.

Section TreeVocabulary.
Context {V : Type}.
Abbreviation Schema := (Schema V).
Abbreviation Node := (Node V Schema).

(** [f] on every sub-schema the nodes point to. *)
Definition map_embedded (f : Schema -> Schema) (ns : list (string * Node))
  : list (string * Node) :=
  map (fun kn : string * Node =>
         (kn.1, Build_Node
                  (map (fun ko : string * option Schema => (ko.1, f <$> ko.2))
                       (EmbeddedSchemas kn.2))
                  (Validator_ kn.2)))
      ns.

(** [f] holds of every pointer the nodes hold. *)
Definition forall_embedded (f : option Schema -> bool)
           (ns : list (string * Node)) : bool :=
  forallb (fun kn : string * Node =>
             forallb (fun ko : string * option Schema => f ko.2)
                     (EmbeddedSchemas kn.2))
          ns.

(** [c] is one of the sub-schemas the nodes point to. *)
Definition embedded_in (c : Schema) (ns : list (string * Node)) : Prop :=
  ∃ k n k', (k, n) ∈ ns ∧ (k', Some c) ∈ EmbeddedSchemas n.

(** The tree with every [resolved] marker set. *)
Fixpoint mark_all (s : Schema) : Schema :=
  match s with
  | Build_Schema ns _ => Build_Schema (map_embedded mark_all ns) true
  end.


(** Every marker of the tree is set. *)
Fixpoint all_resolved (s : Schema) : bool :=
  match s with
  | Build_Schema ns r =>
      r && forall_embedded
             (fun o => match o with Some c => all_resolved c | None => true end)
             ns
  end.

(** No [EmbeddedSchemas] of the tree holds a nil pointer. *)
Fixpoint non_nil (s : Schema) : bool :=
  match s with
  | Build_Schema ns _ =>
      forall_embedded
        (fun o => match o with Some c => non_nil c | None => false end) ns
  end.

(** No schema of the tree has a node whose validator is a [*ref]. *)
Fixpoint ref_free (s : Schema) : bool :=
  match s with
  | Build_Schema ns _ =>
      match hasRef_nodes ns with None => true | Some _ => false end &&
      forall_embedded
        (fun o => match o with Some c => ref_free c | None => true end) ns
  end.

(** The marker means what the data model says: where it is set, the
    traversal below has been completed, so all markers below are set.
    A decoded tree (no marker set) and a resolved one (all set) are both
    of this kind. *)
Fixpoint resolved_closed (s : Schema) : bool :=
  match s with
  | Build_Schema ns r =>
      implb r (forall_embedded
                 (fun o => match o with
                           | Some c => all_resolved c
                           | None => true
                           end) ns) &&
      forall_embedded
        (fun o => match o with Some c => resolved_closed c | None => true end)
        ns
  end.

(** The height of the tree, which bounds the fuel a traversal needs. *)
Fixpoint depth (s : Schema) : nat :=
  match s with
  | Build_Schema ns _ =>
      S (list_max
           (flat_map
              (fun kn : string * Node =>
                 map (fun ko : string * option Schema =>
                        match ko.2 with Some c => depth c | None => 0 end)
                     (EmbeddedSchemas kn.2))
              ns))
  end.

(** What the traversal does to a tree without references: it stops at a
    set marker, and sets the others on its way down. *)
Fixpoint mark_below (s : Schema) : Schema :=
  match s with
  | Build_Schema ns r =>
      if r then s else Build_Schema (map_embedded mark_below ns) true
  end.
End TreeVocabulary.

Section ReferenceVocabulary.
Context {V : Type} `{!RefAPI V}.

(** The three decode attempts of [EmbeddedSchemas.UnmarshalJSON], each on
    its own: as an array of schemas, as an object of schemas, as one
    schema. *)
Definition array_attempt (b : JSON) : list (option (Schema V)) + error :=
  json.Unmarshal_slice_ptr new_Schema Schema_decode "[]*jsonschema.Schema" b.

Definition object_attempt (b : JSON) : gmap string (option (Schema V)) + error :=
  json.Unmarshal_map_ptr new_Schema Schema_decode
    "map[string]*jsonschema.Schema" b.

Definition single_attempt (b : JSON) : Schema V * option error :=
  Schema_decode b new_Schema.

(** What [resolveLocalPath] returns when it fails. *)
Definition failed_to_resolve (str : string) : option (Schema V) * option error :=
  (Some new_Schema, Some ("failed to resolve " +:+ str)).

(** The key under which [refToSchema] caches the document of an absolute
    reference. *)
Definition cacheKey (str : string) (url : URL) : string :=
  GoStrings.TrimSuffix str (Fragment url).
End ReferenceVocabulary.

(** ** Instances for the examples *)

Module Examples.

(** A range that visits a map in the order of [map_to_list]. *)
Definition sorted_range : GoMap.RangeOrder :=
  {| GoMap.range := fun A m => map_to_list m;
     GoMap.range_perm := fun A m => Permutation_refl (map_to_list m) |}.

(** Two schemas: [{}], which accepts every instance, and one that
    rejects every instance with one error.  The decoder takes [{}] to
    the first, any other object to the second, and fails on what is not
    an object. *)
Inductive schema : Type := accepting | rejecting.

Definition schema_api : SchemaAPI schema :=
  {| Schema_zero := accepting;
     Schema_UnmarshalJSON := fun b s =>
       match b with
       | JObject [] => (accepting, None)
       | JObject _ => (rejecting, None)
       | _ => (s, Some (json.UnmarshalTypeError
                          b "map[string]json.RawMessage"))
       end;
     Schema_Validate := fun s _ =>
       match s with
       | accepting => []
       | rejecting => [{| Description := "rejected" |}]
       end |}.

(** Patterns without metacharacters: such a pattern matches the strings
    that contain it.  A pattern with an opening parenthesis stands for
    the ones that do not compile. *)
Definition regexp_api : RegexpAPI string :=
  {| regexp_Compile := fun pattern =>
       if GoStrings.Contains pattern "("
       then inr ("error parsing regexp: missing closing ): `" +:+
                 pattern +:+ "`")
       else inl pattern;
     regexp_MatchString := fun r s => GoStrings.Contains s r |}.

(** The scheme of a URL as [getScheme] of [net/url] finds it: [None]
    for its error (a colon in front), [Some None] when there is no
    scheme.  [i] is the index of the first byte of [rawURL]. *)
Definition is_letter (c : ascii) : bool :=
  let n := nat_of_ascii c in
  (Nat.leb 97 n && Nat.leb n 122) || (Nat.leb 65 n && Nat.leb n 90).

Definition is_scheme_char (c : ascii) : bool :=
  let n := nat_of_ascii c in
  (Nat.leb 48 n && Nat.leb n 57) ||
  Ascii.eqb c "+" || Ascii.eqb c "-" || Ascii.eqb c ".".

Fixpoint getScheme (i : nat) (rawURL : string) : option (option string) :=
  match rawURL with
  | EmptyString => Some None
  | String c rest =>
      let further :=
        option_map (option_map (String c)) (getScheme (S i) rest) in
      if is_letter c then further
      else if is_scheme_char c
      then match i with O => Some None | S _ => further end
      else if Ascii.eqb c ":"
      then match i with O => None | S _ => Some (Some EmptyString) end
      else Some None
  end.

(** [strings.Cut(s, "#")]. *)
Fixpoint cut_hash (s : string) : string * string :=
  match s with
  | EmptyString => (EmptyString, EmptyString)
  | String c r =>
      if Ascii.eqb c "#" then (EmptyString, r)
      else let '(before, after) := cut_hash r in (String c before, after)
  end.

(** [url.Parse] on the URLs of the examples, which have a plain host and
    path and no escapes: the scheme of the part before the first [#],
    the fragment behind it. *)
Definition parse (rawURL : string) : option URL :=
  let '(u, frag) := cut_hash rawURL in
  match getScheme 0 u with
  | None => None
  | Some scheme =>
      Some {| Scheme := default EmptyString scheme; Fragment := frag |}
  end.

(** A network with one document, whose body [ParseWithCache] decodes
    to a schema with one keyword, [definitions], that embeds the empty
    schema under [a].  The schema decoder knows no keyword: it takes
    every object to the empty schema and fails on what is not an
    object. *)
Definition document : Schema unit :=
  Build_Schema
    [("definitions",
      Build_Node [("a", Some (Build_Schema [] false))] (other tt))]
    false.

Definition ref_api : RefAPI unit :=
  {| url_Parse := parse;
     http_Get := fun _ url =>
       if GoStrings.HasPrefix url "http://example.com/schema.json"
       then Some "document" else None;
     ParseWithCache := fun body _ cache =>
       if String.eqb body "document"
       then (inl document, cache)
       else (inr "unexpected end of JSON input", cache);
     Schema_decode := fun b s =>
       match b with
       | JObject _ => (Build_Schema [] false, None)
       | _ => (s, Some (json.UnmarshalTypeError
                          b "map[string]json.RawMessage"))
       end |}.

(** Nothing cached, nothing fetched. *)
Definition empty_world : World unit := {| Cache := ∅; fetched := [] |}.

(** A tree without references: one keyword that embeds one schema. *)
Definition plain_tree : Schema unit :=
  Build_Schema
    [("properties",
      Build_Node [("a", Some (Build_Schema [] false))] (other tt))]
    false.
End Examples.

(** ** Vocabulary of the further statements *)

(** The error [required.Validate] reports for a key. *)
Definition required_error (key : string) : ValidationError :=
  {| Description :=
       "Required error. The data must be an object with " +:+ key +:+
       " as one of its keys" |}.

(** The error [dependencies.Validate] reports for a companion. *)
Definition dependency_error (a : string) : ValidationError :=
  {| Description := "instance does not have a property with the name " +:+ a |}.

Section DependenciesVocabulary.
Context {Schema : Type} `{!SchemaAPI Schema}.

(** The errors of one schema dependency and of one property dependency. *)
Definition schema_dependency_errors (val : list (string * JSON))
           (dep : string * Schema) : list ValidationError :=
  if GoMap.has dep.1 val then Schema_Validate dep.2 (JObject val) else [].

Definition property_dependency_errors (val : list (string * JSON))
           (dep : string * list string) : list ValidationError :=
  if GoMap.has dep.1 val
  then flat_map (fun a => if GoMap.has a val then [] else [dependency_error a])
                dep.2
  else [].
End DependenciesVocabulary.

Section PropertiesAccountVocabulary.
Context {Schema : Type} `{!SchemaAPI Schema}.
Context {Regexp : Type} `{!RegexpAPI Regexp}.

(** The key is one that the boolean form of [additionalProperties]
    forbids: it matched nothing, no [additionalProperties] schema is
    held, and the boolean is [false]. *)
Definition forbidden (p : properties.t Schema Regexp) (dataKey : string)
  : bool :=
  negb (matched p dataKey) &&
  match properties.additionalPropertiesObject p with
  | Some _ => false
  | None => negb (properties.additionalPropertiesBool p)
  end.

(** The errors that the body of the loop of [properties.Validate] appends
    for an entry it does not forbid. *)
Definition key_errors (p : properties.t Schema Regexp)
           (entry : string * JSON) : list ValidationError :=
  exact_errors p entry.1 entry.2 ++ pattern_errors p entry.1 entry.2 ++
  (if matched p entry.1 then []
   else match properties.additionalPropertiesObject p with
        | Some s => Schema_Validate s entry.2
        | None => []
        end).

(** The errors of one entry under the entries of a [patternProperties]
    validator. *)
Definition entry_pattern_errors (pp : patternProperties.t Schema Regexp)
           (entry : string * JSON) : list ValidationError :=
  flat_map (fun val => Schema_Validate (schema val) entry.2)
           (List.filter (fun val => regexp_MatchString (regexp val) entry.1)
                        (patternProperties.object pp)).

(** A [properties] validator that holds nothing but the patterns. *)
Definition only_patterns (pp : patternProperties.t Schema Regexp)
  : properties.t Schema Regexp :=
  {| properties.object := ∅;
     properties.patternProperties := Some pp;
     properties.additionalPropertiesBool := true;
     properties.additionalPropertiesObject := None |}.
End PropertiesAccountVocabulary.

Section PatternDecodeVocabulary.
Context {Schema : Type} {Regexp : Type} `{!RegexpAPI Regexp}.

(** The entry was compiled from a key of the decoded map and holds the
    schema of that key. *)
Definition compiled_from (entry : string * Schema)
           (e : regexpToSchema Regexp Schema) : Prop :=
  regexp_Compile entry.1 = inl (regexp e) ∧ schema e = entry.2.
End PatternDecodeVocabulary.

Section TraversalVocabulary.
Context {V : Type}.

(** The traversal of [resolveBelow] comes to a nil pointer: the marker of
    the schema is not set, and one of the pointers its nodes hold is nil
    or points to a schema of which the same is true. *)
Fixpoint reaches_nil (s : Schema V) : bool :=
  match s with
  | Build_Schema ns r =>
      negb r &&
      negb (forall_embedded
              (fun o => match o with
                        | Some c => negb (reaches_nil c)
                        | None => false
                        end) ns)
  end.

(** Every node of the list holds a validator that is not a [*ref]. *)
Definition no_ref_node (ns : list (string * Node V (Schema V))) : Prop :=
  ∀ k n, (k, n) ∈ ns → ∃ v, Validator_ n = other v.
End TraversalVocabulary.

Section WorldVocabulary.
Context {V : Type} `{!RefAPI V}.

(** The reference string is not an absolute URL: [url.Parse] fails on it
    or finds no scheme. *)
Definition is_local (str : string) : Prop :=
  url_Parse str = None ∨ ∃ url, url_Parse str = Some url ∧ IsAbs url = false.

(** The world after a request for [str] that stored nothing. *)
Definition after_request (w : World V) (str : string) : World V :=
  {| Cache := Cache w; fetched := fetched w ++ [str] |}.
End WorldVocabulary.

(** The number of bytes [c] in [s]. *)
Fixpoint count_byte (c : ascii) (s : string) : nat :=
  match s with
  | EmptyString => 0
  | String d r => (if Ascii.eqb d c then 1 else 0) + count_byte c r
  end.

(** A pointer segment that holds no separator and nothing to unescape. *)
Definition plain_segment (s : string) : bool :=
  (count_byte "/" s =? 0) && (count_byte "~" s =? 0) &&
  (count_byte "%" s =? 0).

Module FurtherExamples.
(** A [properties] validator that names one property and allows every
    other key, and one that names none and forbids every key. *)
Definition open_properties : properties.t Examples.schema string :=
  {| properties.object := {[ "a" := Examples.rejecting ]};
     properties.patternProperties := None;
     properties.additionalPropertiesBool := true;
     properties.additionalPropertiesObject := None |}.

Definition closed_properties : properties.t Examples.schema string :=
  {| properties.object := ∅;
     properties.patternProperties := None;
     properties.additionalPropertiesBool := false;
     properties.additionalPropertiesObject := None |}.

(** A schema whose reference points to the schema itself. *)
Definition self_ref : Schema unit :=
  Build_Schema [("$ref", Build_Node [] (ref "#"))] false.

(** A tree in which a keyword embeds a nil pointer, as the decoder leaves
    it for a [null] in an array of schemas. *)
Definition nil_tree : Schema unit :=
  Build_Schema [("anyOf", Build_Node [("0", None)] (other tt))] false.
End FurtherExamples.

Module TargetExample.
(** A schema that is nothing but a reference to a definition of the
    document of the examples. *)
Definition local_ref : Schema unit :=
  Build_Schema [("$ref", Build_Node [] (ref "#/definitions/a"))] false.
End TargetExample.

(** * Properties *)

(** ** The replacer *)

Section ReplacerFacts.
Import GoStrings.

Lemma HasPrefix_nil s : HasPrefix s "" = true.
Proof. by destruct s. Qed.

Lemma HasPrefix_cons c s d p :
  HasPrefix (String c s) (String d p) = Ascii.eqb d c && HasPrefix s p.
Proof.
  unfold HasPrefix. simpl. destruct (ascii_dec d c) as [->|Hne].
  - by rewrite Ascii.eqb_refl.
  - apply Ascii.eqb_neq in Hne. by rewrite Hne.
Qed.

Lemma HasPrefix_ne c s d p :
  d ≠ c → HasPrefix (String c s) (String d p) = false.
Proof.
  intros Hne. rewrite HasPrefix_cons. apply Ascii.eqb_neq in Hne.
  by rewrite Hne.
Qed.

Lemma HasPrefix_first_byte x d p :
  HasPrefix x (String d p) = true → first_byte x = Some d.
Proof.
  destruct x as [|c x]; [done|]. rewrite HasPrefix_cons.
  intros [->%Ascii.eqb_eq _]%andb_true_iff. done.
Qed.

Lemma HasPrefix_one_byte x d :
  HasPrefix x (String d "") = bool_decide (first_byte x = Some d).
Proof.
  destruct x as [|c x]; [done|].
  rewrite HasPrefix_cons, HasPrefix_nil, andb_true_r. simpl.
  destruct (Ascii.eqb_spec d c) as [->|Hne].
  - by rewrite bool_decide_eq_true_2.
  - rewrite bool_decide_eq_false_2; [done|]. congruence.
Qed.

Lemma Contains_cons c s p :
  Contains (String c s) p = false →
  HasPrefix (String c s) p = false ∧ Contains s p = false.
Proof. simpl. by intros [? ?]%orb_false_elim. Qed.

(** One step of [Replace]. *)
Lemma Replace_cons r c s :
  Replace r (String c s) =
  match lookup r (String c s) with
  | Some (old, new) => new +:+ Replace_from r (String.length old - 1) s
  | None => String c (Replace r s)
  end.
Proof. reflexivity. Qed.

Lemma Replace_miss r c s :
  lookup r (String c s) = None →
  Replace r (String c s) = String c (Replace r s).
Proof. intros H. by rewrite Replace_cons, H. Qed.

Lemma Replace_hit2 r a b s old new :
  lookup r (String a (String b s)) = Some (old, new) →
  String.length old = 2 →
  Replace r (String a (String b s)) = new +:+ Replace r s.
Proof. intros H Hl. by rewrite Replace_cons, H, Hl. Qed.

Lemma Replace_hit3 r a b c s old new :
  lookup r (String a (String b (String c s))) = Some (old, new) →
  String.length old = 3 →
  Replace r (String a (String b (String c s))) = new +:+ Replace r s.
Proof. intros H Hl. by rewrite Replace_cons, H, Hl. Qed.

Ltac split_chars :=
  repeat match goal with
    | |- context [Ascii.eqb ?x ?y] =>
        destruct (Ascii.eqb_spec x y); cbn [andb orb negb] in *; simplify_eq
    | H : context [Ascii.eqb ?x ?y] |- _ =>
        destruct (Ascii.eqb_spec x y); cbn [andb orb negb] in *; simplify_eq
    end.

Ltac hit old new :=
  first [rewrite (Replace_hit3 _ _ _ _ _ old new)
        |rewrite (Replace_hit2 _ _ _ _ old new)];
  [reflexivity
  |cbn [lookup]; rewrite ?HasPrefix_cons, ?HasPrefix_nil; reflexivity
  |reflexivity].

Lemma pass0_hit r : pass0 (String "~" (String "0" r)) = String "~" (pass0 r).
Proof. unfold pass0, ReplaceAll. hit "~0" "~". Qed.

Lemma pass1_hit r : pass1 (String "~" (String "1" r)) = String "/" (pass1 r).
Proof. unfold pass1, ReplaceAll. hit "~1" "/". Qed.

Lemma pass25_hit r :
  pass25 (String "%" (String "2" (String "5" r))) = String "%" (pass25 r).
Proof. unfold pass25, ReplaceAll. hit "%25" "%". Qed.

Lemma single_pass_hit0 r :
  single_pass (String "~" (String "0" r)) = String "~" (single_pass r).
Proof. unfold single_pass, unescape. hit "~0" "~". Qed.

Lemma single_pass_hit1 r :
  single_pass (String "~" (String "1" r)) = String "/" (single_pass r).
Proof. unfold single_pass, unescape. hit "~1" "/". Qed.

Lemma single_pass_hit25 r :
  single_pass (String "%" (String "2" (String "5" r))) =
  String "%" (single_pass r).
Proof. unfold single_pass, unescape. hit "%25" "%". Qed.

Lemma pass0_miss c s :
  HasPrefix (String c s) "~0" = false →
  pass0 (String c s) = String c (pass0 s).
Proof.
  intros H. unfold pass0, ReplaceAll. apply Replace_miss.
  cbn [lookup]. by rewrite H.
Qed.

Lemma pass1_miss c s :
  HasPrefix (String c s) "~1" = false →
  pass1 (String c s) = String c (pass1 s).
Proof.
  intros H. unfold pass1, ReplaceAll. apply Replace_miss.
  cbn [lookup]. by rewrite H.
Qed.

Lemma pass25_miss c s :
  HasPrefix (String c s) "%25" = false →
  pass25 (String c s) = String c (pass25 s).
Proof.
  intros H. unfold pass25, ReplaceAll. apply Replace_miss.
  cbn [lookup]. by rewrite H.
Qed.

Lemma single_pass_miss c s :
  HasPrefix (String c s) "~0" = false →
  HasPrefix (String c s) "~1" = false →
  HasPrefix (String c s) "%25" = false →
  single_pass (String c s) = String c (single_pass s).
Proof.
  intros H0 H1 H2. unfold single_pass, unescape. apply Replace_miss.
  cbn [lookup]. by rewrite H0, H1, H2.
Qed.

(** The first pass keeps the first byte; the second keeps it unless it
    turns a leading "~1" into "/". *)
Lemma first_byte_pass0 s : first_byte (pass0 s) = first_byte s.
Proof.
  destruct s as [|c s]; [done|].
  destruct (HasPrefix (String c s) "~0") eqn:E.
  - destruct s as [|d s]; rewrite !HasPrefix_cons in E;
      [by rewrite andb_false_r in E|].
    rewrite HasPrefix_nil in E. split_chars. by rewrite pass0_hit.
  - by rewrite pass0_miss.
Qed.

Lemma first_byte_pass1 x :
  first_byte (pass1 x) = first_byte x ∨
  (first_byte x = Some "~"%char ∧ first_byte (pass1 x) = Some "/"%char).
Proof.
  destruct x as [|c s]; [by left|].
  destruct (HasPrefix (String c s) "~1") eqn:E.
  - destruct s as [|d s]; rewrite !HasPrefix_cons in E;
      [by rewrite andb_false_r in E|].
    rewrite HasPrefix_nil in E. split_chars. right. by rewrite pass1_hit.
  - left. by rewrite pass1_miss.
Qed.

Lemma HasPrefix_pass0 s d :
  HasPrefix (pass0 s) (String d "") = HasPrefix s (String d "").
Proof. by rewrite !HasPrefix_one_byte, first_byte_pass0. Qed.

Lemma HasPrefix_pass1 x d :
  d ≠ "~"%char → d ≠ "/"%char →
  HasPrefix (pass1 x) (String d "") = HasPrefix x (String d "").
Proof.
  intros H1 H2. rewrite !HasPrefix_one_byte.
  destruct (first_byte_pass1 x) as [->|[Hx Hy]]; [done|].
  rewrite Hx, Hy. rewrite !bool_decide_eq_false_2; congruence.
Qed.

Lemma HasPrefix_25 r :
  HasPrefix (pass1 (pass0 r)) "25" = HasPrefix r "25".
Proof.
  destruct r as [|c r]; [done|].
  destruct (Ascii.eqb_spec c "2") as [->|Hne].
  - rewrite pass0_miss by done. rewrite pass1_miss by done.
    rewrite !HasPrefix_cons. f_equal.
    rewrite HasPrefix_pass1 by done. apply HasPrefix_pass0.
  - transitivity false.
    + destruct (HasPrefix (pass1 (pass0 (String c r))) "25") eqn:E; [|done].
      apply HasPrefix_first_byte in E.
      destruct (first_byte_pass1 (pass0 (String c r))) as [Hh|[Hx Hy]].
      * rewrite Hh, first_byte_pass0 in E. simpl in E. congruence.
      * congruence.
    + rewrite HasPrefix_cons. apply Ascii.eqb_neq in Hne.
      rewrite Ascii.eqb_sym, Hne. done.
Qed.

(** On a segment in which "~01" does not occur, the single pass of the
    code and the three passes in order give the same string. *)
Lemma unescape_in_order_single_pass s :
  Contains s "~01" = false → unescape_in_order s = single_pass s.
Proof.
  change (unescape_in_order s) with (pass25 (pass1 (pass0 s))).
  remember (String.length s) as n eqn:Hn.
  revert s Hn. induction (lt_wf n) as [n _ IH]. intros s -> Hc.
  destruct s as [|c s]; [done|].
  apply Contains_cons in Hc as [Hp Hc].
  assert (IHs : ∀ t, String.length t < S (String.length s) →
                     Contains t "~01" = false →
                     pass25 (pass1 (pass0 t)) = single_pass t).
  { intros t Ht Hct. by eapply IH. }
  clear IH.
  destruct (Ascii.eqb_spec c "~") as [->|Hc1].
  { destruct s as [|d s]; [done|].
    apply Contains_cons in Hc as [Hp' Hc'].
    destruct (Ascii.eqb_spec d "0") as [->|Hd0].
    { rewrite pass0_hit, single_pass_hit0.
      assert (HasPrefix s "1" = false) as Hs1.
      { by rewrite !HasPrefix_cons in Hp. }
      rewrite pass1_miss.
      2:{ rewrite HasPrefix_cons, HasPrefix_pass0, Hs1. apply andb_false_r. }
      rewrite pass25_miss by done. f_equal.
      apply IHs; [simpl; lia | done]. }
    destruct (Ascii.eqb_spec d "1") as [->|Hd1].
    { rewrite (pass0_miss "~") by done. rewrite (pass0_miss "1") by done.
      rewrite pass1_hit, single_pass_hit1, pass25_miss by done.
      f_equal. apply IHs; [simpl; lia | done]. }
    assert (HasPrefix (String d s) "0" = false) as Hn0
        by (by apply HasPrefix_ne).
    assert (HasPrefix (String d s) "1" = false) as Hn1
        by (by apply HasPrefix_ne).
    rewrite pass0_miss by (by rewrite HasPrefix_cons, Hn0, andb_false_r).
    rewrite pass1_miss
      by (by rewrite HasPrefix_cons, HasPrefix_pass0, Hn1, andb_false_r).
    rewrite pass25_miss by done.
    rewrite single_pass_miss;
      [| by rewrite HasPrefix_cons, ?Hn0, ?Hn1, andb_false_r ..| done].
    f_equal. apply IHs; [simpl; lia | by apply orb_false_intro]. }
  destruct (Ascii.eqb_spec c "%") as [->|Hc2].
  { destruct (HasPrefix s "25") eqn:E25.
    - destruct s as [|d [|e s]]; [done| |].
      { rewrite !HasPrefix_cons in E25. by rewrite andb_false_r in E25. }
      rewrite !HasPrefix_cons, HasPrefix_nil in E25. split_chars.
      apply Contains_cons in Hc as [_ Hc].
      apply Contains_cons in Hc as [_ Hc].
      rewrite !pass0_miss by done. rewrite !pass1_miss by done.
      rewrite pass25_hit, single_pass_hit25. f_equal.
      apply IHs; [simpl; lia | done].
    - rewrite pass0_miss by done. rewrite pass1_miss by done.
      rewrite pass25_miss by (by rewrite HasPrefix_cons, HasPrefix_25, E25).
      rewrite single_pass_miss;
        [| done | done | by rewrite HasPrefix_cons, E25].
      f_equal. apply IHs; [simpl; lia | done]. }
  rewrite pass0_miss by (by apply HasPrefix_ne).
  rewrite pass1_miss by (by apply HasPrefix_ne).
  rewrite pass25_miss by (by apply HasPrefix_ne).
  rewrite single_pass_miss by (by apply HasPrefix_ne).
  f_equal. apply IHs; [simpl; lia | done].
Qed.
End ReplacerFacts.

(** ** Pointer segments (C4) *)

(** C4, against the specification as worded: the reference "#/~01" has the one
    segment "~01".  The code's replacer turns it into "~1": it writes "~"
    for "~0" and goes on behind the match, at "1".  The three replacements
    applied in order turn it into "/": the second finds "~1" in what the
    first wrote. *)
Lemma unescape_in_order_differs :
  split_ref (trim_ref "#/~01") = ["~1"] ∧
  map unescape_in_order (GoStrings.Split (trim_ref "#/~01") "/") = ["/"] ∧
  split_ref (trim_ref "#/~01")
  ≠ map unescape_in_order (GoStrings.Split (trim_ref "#/~01") "/").
Proof. split; [reflexivity | split; [reflexivity | discriminate]]. Qed.

(** C4, as amended: after one leading "#" and one leading "/" are
    stripped and the rest is split on "/", each segment is unescaped by
    one pass of the replacer over it, which at each position tries "~0",
    "~1" and "%25" in this order and does not look again at what it wrote.
    That is the result of the three replacements applied in order whenever
    "~01" does not occur in the segment; the segment "a~1b~0c" becomes the
    key "a/b~c", under which a two-segment pointer then looks. *)
Theorem unescape_segments (str : string) :
  forallb (fun seg => negb (GoStrings.Contains seg "~01"))
          (GoStrings.Split (trim_ref str) "/") = true →
  split_ref (trim_ref str)
  = map unescape_in_order (GoStrings.Split (trim_ref str) "/")
  ∧ single_pass "a~1b~0c" = "a/b~c"
  ∧ ∀ (V : Type) (rootSchema : Schema V),
      refToSchema_local "#/properties/a~1b~0c" rootSchema
      = resolveLocalPath ["properties"; "a/b~c"] rootSchema
                         "properties/a~1b~0c".
Proof.
  intros Hall. split; [|split; [reflexivity|intros; reflexivity]].
  unfold split_ref. apply map_ext_in. intros seg Hin.
  rewrite forallb_forall in Hall. specialize (Hall seg Hin).
  apply negb_true_iff in Hall.
  symmetry. by apply unescape_in_order_single_pass.
Qed.

Lemma unescape_segments_witness :
  forallb (fun seg => negb (GoStrings.Contains seg "~01"))
          (GoStrings.Split (trim_ref "#/definitions/a~1b~0c") "/") = true ∧
  split_ref (trim_ref "#/definitions/a~1b~0c")
  = map unescape_in_order
        (GoStrings.Split (trim_ref "#/definitions/a~1b~0c") "/").
Proof.
  split; [reflexivity|].
  apply (unescape_segments "#/definitions/a~1b~0c"). reflexivity.
Defined.

(** ** Object validators *)

Section ObjectValidators.
Context {Schema : Type} `{!SchemaAPI Schema}.
Context {Regexp : Type} `{!RegexpAPI Regexp}.

(** C9: on an instance that is not a [map[string]interface{}], every
    validator of the object family returns no error: [dependencies],
    [maxProperties], [minProperties], [patternProperties], [properties]
    (which carries [additionalProperties]) and [required]. *)
Theorem Validate_non_object
        (d : dependencies.t Schema) (mx : maxProperties.t)
        (mn : minProperties.t) (pp : patternProperties.t Schema Regexp)
        (p : properties.t Schema Regexp) (r : required.t) (v : JSON) :
  is_object v = false →
  dependencies.Validate d v = [] ∧
  maxProperties.Validate mx v = [] ∧
  minProperties.Validate mn v = [] ∧
  patternProperties.Validate pp v = [] ∧
  properties.Validate p v = [] ∧
  required.Validate r v = [].
Proof. intros Hv. destruct v; [done..|discriminate Hv]. Qed.

(** The pattern loop of [properties.Validate]: the errors of the matching
    entries are appended, and [match] is set if there is one. *)
Lemma pattern_loop (dataKey : string) (dataVal : JSON)
      (l : list (regexpToSchema Regexp Schema))
      (valErrs : list ValidationError) (match_ : bool) :
  fold_left
    (fun '(valErrs, match_) val =>
       if regexp_MatchString (regexp val) dataKey
       then (valErrs ++ Schema_Validate (schema val) dataVal, true)
       else (valErrs, match_))
    l (valErrs, match_)
  = (valErrs ++
     flat_map (fun val => Schema_Validate (schema val) dataVal)
              (List.filter (fun val => regexp_MatchString (regexp val) dataKey) l),
     match_ ||
     match List.filter (fun val => regexp_MatchString (regexp val) dataKey) l
     with [] => false | _ :: _ => true end).
Proof.
  revert valErrs match_. induction l as [|val l IH]; intros valErrs match_.
  - simpl. by rewrite app_nil_r, orb_false_r.
  - cbn [fold_left List.filter].
    destruct (regexp_MatchString (regexp val) dataKey).
    + rewrite IH. cbn [flat_map]. rewrite <- app_assoc.
      by rewrite orb_true_r.
    + by rewrite IH.
Qed.

Lemma match_key_spec (p : properties.t Schema Regexp)
      (dataKey : string) (dataVal : JSON) (valErrs : list ValidationError) :
  properties.match_key p dataKey dataVal valErrs
  = (valErrs ++ exact_errors p dataKey dataVal
             ++ pattern_errors p dataKey dataVal,
     matched p dataKey).
Proof.
  unfold properties.match_key, exact_errors, pattern_errors, matched,
    matching_patterns.
  destruct (properties.object p !! dataKey) as [schema|];
    destruct (properties.patternProperties p) as [pp|]; cbn [flat_map orb].
  - rewrite pattern_loop. by rewrite <- app_assoc.
  - by rewrite app_nil_r.
  - by rewrite pattern_loop.
  - by rewrite !app_nil_r.
Qed.

Lemma unmatched_no_errors (p : properties.t Schema Regexp)
      (dataKey : string) (dataVal : JSON) :
  matched p dataKey = false →
  exact_errors p dataKey dataVal = [] ∧ pattern_errors p dataKey dataVal = [].
Proof.
  unfold matched, exact_errors, pattern_errors.
  intros [H1 H2]%orb_false_elim.
  destruct (properties.object p !! dataKey); [done|].
  by destruct (matching_patterns p dataKey).
Qed.

(** C2: the precedence for one key of an object instance.  The exact
    match in [properties] validates the value and sets [match]; whether or
    not it did, every [patternProperties] entry whose pattern matches the
    key validates the value and sets [match].  A key that matched neither
    is validated against the [additionalProperties] schema when there is
    one, whatever the boolean says, and is otherwise left to the boolean.
    [SetSchema] leaves the boolean [true] when the keyword is absent, and
    keeps a schema exactly when the value decodes as one. *)
Theorem properties_precedence `{!GoMap.RangeOrder}
        (p : properties.t Schema Regexp) (dataKey : string) (dataVal : JSON)
        (valErrs : list ValidationError) :
  properties.match_key p dataKey dataVal valErrs
  = (valErrs ++ exact_errors p dataKey dataVal
             ++ pattern_errors p dataKey dataVal,
     matched p dataKey)
  ∧ properties.Validate_key p dataKey dataVal valErrs
    = (if matched p dataKey
       then valErrs ++ exact_errors p dataKey dataVal
                    ++ pattern_errors p dataKey dataVal
       else match properties.additionalPropertiesObject p with
            | Some s => valErrs ++ Schema_Validate s dataVal
            | None => if properties.additionalPropertiesBool p
                      then valErrs else [not_allowed]
            end)
  ∧ (∀ before after : list (string * JSON),
       properties.Validate p (JObject (before ++ (dataKey, dataVal) :: after))
       = fold_left
           (fun valErrs '(k, x) => properties.Validate_key p k x valErrs)
           after
           (properties.Validate_key p dataKey dataVal
              (properties.Validate p (JObject before))))
  ∧ (∀ v : gmap string JSON,
       match v !! "additionalProperties" with
       | None =>
           properties.additionalPropertiesBool (properties.SetSchema p v).1
           = true
           ∧ properties.additionalPropertiesObject (properties.SetSchema p v).1
             = properties.additionalPropertiesObject p
       | Some addVal =>
           properties.additionalPropertiesBool (properties.SetSchema p v).1
           = match addVal with JBool b => b | _ => true end
           ∧ properties.additionalPropertiesObject (properties.SetSchema p v).1
             = match addVal with
               | JNull => None
               | _ =>
                   match Schema_UnmarshalJSON addVal
                           (default Schema_zero
                              (properties.additionalPropertiesObject p)) with
                   | (s, None) => Some s
                   | (_, Some _) => None
                   end
               end
       end).
Proof.
  split; [apply match_key_spec|]. split; [|split].
  - unfold properties.Validate_key. rewrite match_key_spec.
    unfold properties.additional, not_allowed.
    destruct (matched p dataKey) eqn:Hm; cbv beta iota; [done|].
    destruct (unmatched_no_errors p dataKey dataVal Hm) as [-> ->].
    rewrite !app_nil_r.
    destruct (properties.additionalPropertiesObject p); [done|].
    by destruct (properties.additionalPropertiesBool p).
  - intros before after. cbn [properties.Validate].
    by rewrite fold_left_app.
  - intros v. unfold properties.SetSchema.
    destruct (v !! "additionalProperties") as [addVal|]; [|done].
    destruct addVal; cbn [json.Unmarshal_bool json.Unmarshal_ptr fst snd];
      try done;
      match goal with
      | |- context [Schema_UnmarshalJSON ?b ?s] =>
          by destruct (Schema_UnmarshalJSON b s) as [? [?|]]
      end.
Qed.

(** C1, what the code does: a key that the boolean form forbids does not
    add its error to [valErrs], it replaces [valErrs] by that one error.
    With [properties: {"a": schemaA}] and the entries visited in the order
    a, b, the errors of a's value are gone, whatever [schemaA] is; with no
    property named and two keys, both forbidden, one error comes back, not
    two. *)
Theorem additional_error_replaces (schemaA : Schema) (x y : JSON) :
  properties.Validate
    {| properties.object := {[ "a" := schemaA ]};
       properties.patternProperties := @None (patternProperties.t Schema Regexp);
       properties.additionalPropertiesBool := false;
       properties.additionalPropertiesObject := None |}
    (JObject [("a", x); ("b", y)])
  = [not_allowed]
  ∧ properties.Validate
      {| properties.object := ∅;
         properties.patternProperties := @None (patternProperties.t Schema Regexp);
         properties.additionalPropertiesBool := false;
         properties.additionalPropertiesObject := None |}
      (JObject [("b", x); ("c", y)])
    = [not_allowed].
Proof. split; reflexivity. Qed.




Lemma range_lookup `{!GoMap.RangeOrder} {A : Type} (m : gmap string A)
      (k : string) (a : A) :
  (k, a) ∈ GoMap.range m ↔ m !! k = Some a.
Proof. rewrite (GoMap.range_perm A m). apply elem_of_map_to_list. Qed.


End ObjectValidators.

Lemma Validate_non_object_witness :
  is_object (JString "a") = false ∧
  @properties.Validate _ Examples.schema_api _ Examples.regexp_api
    {| properties.object := {[ "a" := Examples.rejecting ]};
       properties.patternProperties := None;
       properties.additionalPropertiesBool := false;
       properties.additionalPropertiesObject := None |}
    (JString "a") = [].
Proof.
  split; [reflexivity|].
  destruct (@Validate_non_object _ Examples.schema_api _ Examples.regexp_api
              {| dependencies.schemaDeps := []; dependencies.propertyDeps := [] |}
              1%Z 1%Z {| patternProperties.object := [] |}
              {| properties.object := {[ "a" := Examples.rejecting ]};
                 properties.patternProperties := None;
                 properties.additionalPropertiesBool := false;
                 properties.additionalPropertiesObject := None |}
              ["a"] (JString "a") eq_refl) as (_ & _ & _ & _ & H & _).
  exact H.
Defined.


(** ** Schema trees *)

Section TreeFacts.
Context {V : Type}.
Abbreviation Schema := (Schema V).
Abbreviation Node := (Node V Schema).

Lemma depth_embedded (c : Schema) (ns : list (string * Node)) (r : bool) :
  embedded_in c ns → depth c < depth (Build_Schema ns r).
Proof.
  intros (k & n & k' & Hn & Hc). cbn [depth]. apply Nat.lt_succ_r.
  match goal with
  | |- _ ≤ list_max ?l =>
      pose proof (proj1 (list_max_le l (list_max l)) (Nat.le_refl _)) as Hall
  end.
  rewrite Forall_forall in Hall. apply Hall.
  apply list_elem_of_In, in_flat_map. exists (k, n).
  split; [by apply list_elem_of_In|].
  apply in_map_iff. exists (k', Some c). split; [done|by apply list_elem_of_In].
Qed.

(** Induction on a schema tree: a property that holds of a schema once
    it holds of all the schemas its nodes embed holds of every schema. *)
Lemma Schema_tree_ind (P : Schema → Prop) :
  (∀ ns r, (∀ c, embedded_in c ns → P c) → P (Build_Schema ns r)) →
  ∀ s, P s.
Proof.
  intros H s. remember (depth s) as d eqn:Hd. revert s Hd.
  induction (lt_wf d) as [d _ IH]. intros [ns r] ->.
  apply H. intros c Hc. eapply IH; [|done]. by apply depth_embedded.
Qed.

Lemma forall_embedded_spec (f : option Schema → bool)
      (ns : list (string * Node)) :
  forall_embedded f ns = true ↔
  ∀ k n k' o, (k, n) ∈ ns → (k', o) ∈ EmbeddedSchemas n → f o = true.
Proof.
  unfold forall_embedded. rewrite forallb_forall. split.
  - intros H k n k' o Hn Ho. apply list_elem_of_In in Hn. specialize (H _ Hn).
    rewrite forallb_forall in H. apply list_elem_of_In in Ho. apply (H _ Ho).
  - intros H [k n] Hn. apply forallb_forall. intros [k' o] Ho.
    apply list_elem_of_In in Hn, Ho. by eapply H.
Qed.

Lemma forall_embedded_Some (p : Schema → bool) (ns : list (string * Node)) :
  forall_embedded (λ o, match o with Some c => p c | None => true end) ns = true
  ↔ ∀ c, embedded_in c ns → p c = true.
Proof.
  rewrite forall_embedded_spec. split.
  - intros H c (k & n & k' & Hn & Hc). by apply (H k n k' (Some c)).
  - intros H k n k' [c|] Hn Ho; [|done]. apply H. by exists k, n, k'.
Qed.


Lemma map_embedded_ext (f g : Schema → Schema) (ns : list (string * Node)) :
  (∀ c, embedded_in c ns → f c = g c) →
  map_embedded f ns = map_embedded g ns.
Proof.
  intros H. unfold map_embedded. apply map_ext_in. intros [k n] Hn. simpl.
  f_equal. f_equal. apply map_ext_in. intros [k' o] Ho. simpl. f_equal.
  destruct o as [c|]; [|done]. simpl. f_equal. apply H.
  exists k, n, k'. split; by apply list_elem_of_In.
Qed.

Lemma map_embedded_id (ns : list (string * Node)) :
  map_embedded (λ c, c) ns = ns.
Proof.
  unfold map_embedded. rewrite <- (map_id ns) at 2. apply map_ext.
  intros [k [es v]]. simpl. f_equal. f_equal.
  rewrite <- (map_id es) at 2. apply map_ext. intros [k' [c|]]; done.
Qed.




Lemma mark_all_resolved (s : Schema) : all_resolved s = true → mark_all s = s.
Proof.
  induction s as [ns r IH] using Schema_tree_ind. cbn [mark_all all_resolved].
  intros [-> Hall]%andb_true_iff. f_equal.
  rewrite <- (map_embedded_id ns) at 2. apply map_embedded_ext.
  intros c Hc. apply IH; [done|]. by eapply forall_embedded_Some in Hall.
Qed.

Lemma mark_below_closed (s : Schema) :
  resolved_closed s = true → mark_below s = mark_all s.
Proof.
  induction s as [ns r IH] using Schema_tree_ind. cbn [resolved_closed].
  intros [Hr Hcl]%andb_true_iff. cbn [mark_below]. destruct r.
  - symmetry. apply mark_all_resolved.
    cbn [all_resolved implb andb] in *. done.
  - cbn [mark_all]. f_equal. apply map_embedded_ext. intros c Hc.
    apply IH; [done|]. by eapply forall_embedded_Some in Hcl.
Qed.
End TreeFacts.

(** ** Ranged maps *)

Section GoMapFacts.
Context {A : Type}.

Lemma keys_set (k k' : string) (a : A) (m : list (string * A)) :
  k' ∈ GoMap.keys (GoMap.set k a m) ↔ k' = k ∨ k' ∈ GoMap.keys m.
Proof.
  unfold GoMap.keys. induction m as [|[k0 a0] m IH]; cbn [GoMap.set map fst].
  - rewrite elem_of_cons, elem_of_nil. tauto.
  - destruct (String.eqb_spec k k0) as [->|Hne]; cbn [map fst].
    + rewrite !elem_of_cons. tauto.
    + rewrite !elem_of_cons, IH. tauto.
Qed.

Lemma keys_fold_set {B : Type}
      (f : list (string * A) → B → list (string * A))
      (key : B → string) (val : B → A) (l : list B) (e : list (string * A))
      (k : string) :
  (∀ e b, f e b = GoMap.set (key b) (val b) e) →
  k ∈ GoMap.keys (fold_left f l e)
  ↔ (∃ b, b ∈ l ∧ k = key b) ∨ k ∈ GoMap.keys e.
Proof.
  intros Hf. revert e. induction l as [|b l IH]; intros e; cbn [fold_left].
  - split; [by right|]. intros [(b & Hb & _)|?]; [|done].
    by apply elem_of_nil in Hb.
  - rewrite IH, Hf, keys_set. split.
    + intros [(b' & Hb' & ->)|[->|?]]; [left|left|by right].
      * exists b'. split; [apply elem_of_cons; by right|done].
      * exists b. split; [apply elem_of_cons; by left|done].
    + intros [(b' & Hb' & ->)|?]; [|by right; right].
      apply elem_of_cons in Hb' as [->|Hb']; [right; by left|].
      left. by exists b'.
Qed.
End GoMapFacts.

(** ** The decoder of embedded schemas (C6) *)

Section Decode.
Context {V : Type} `{!RefAPI V} `{!GoMap.RangeOrder}.

Lemma UnmarshalArray_spec (b : JSON) (e : EmbeddedSchemas_t) :
  (is_Some (EmbeddedSchemas_UnmarshalArray b e).2
   ↔ ∃ err, array_attempt b = inr err)
  ∧ ∀ k, k ∈ GoMap.keys (EmbeddedSchemas_UnmarshalArray b e).1 ↔
      (∃ schemas i, array_attempt b = inl schemas ∧ i < length schemas ∧
                    k = Itoa (Z.of_nat i))
      ∨ k ∈ GoMap.keys e.
Proof.
  unfold EmbeddedSchemas_UnmarshalArray. fold (array_attempt b).
  destruct (array_attempt b) as [schemas|err]; cbn [fst snd].
  - split; [split; [by intros [? ?]|by intros [? ?]]|]. intros k.
    rewrite (keys_fold_set _ (λ iv, Itoa (Z.of_nat iv.1)) snd);
      [|by intros ? [? ?]].
    split.
    + intros [([i v] & Hin & ->)|?]; [left|by right].
      apply elem_of_lookup_imap in Hin as (i' & v' & Heq & Hl). simplify_eq.
      exists schemas, i'. split; [done|]. split; [|done].
      by eapply lookup_lt_Some.
    + intros [(schemas' & i & Heq & Hi & ->)|?]; [left|by right]. simplify_eq.
      destruct (lookup_lt_is_Some_2 schemas' i Hi) as [v Hv].
      exists (i, v). split; [|done]. apply elem_of_lookup_imap. by exists i, v.
  - split; [split; [by eexists|by eexists]|]. intros k. split; [by right|].
    by intros [(? & ? & ? & _)|?].
Qed.

Lemma UnmarshalObject_spec (b : JSON) (e : EmbeddedSchemas_t) :
  (is_Some (EmbeddedSchemas_UnmarshalObject b e).2
   ↔ ∃ err, object_attempt b = inr err)
  ∧ ∀ k, k ∈ GoMap.keys (EmbeddedSchemas_UnmarshalObject b e).1 ↔
      (∃ m, object_attempt b = inl m ∧ is_Some (m !! k))
      ∨ k ∈ GoMap.keys e.
Proof.
  unfold EmbeddedSchemas_UnmarshalObject. fold (object_attempt b).
  destruct (object_attempt b) as [m|err]; cbn [fst snd].
  - split; [split; [by intros [? ?]|by intros [? ?]]|]. intros k.
    rewrite (keys_fold_set _ fst snd); [|by intros ? [? ?]].
    split.
    + intros [([k' v] & Hin & ->)|?]; [left|by right].
      exists m. split; [done|]. exists v.
      apply elem_of_map_to_list. by rewrite <- (GoMap.range_perm _ m).
    + intros [(m' & Heq & [v Hv])|?]; [left|by right]. simplify_eq.
      exists (k, v). split; [|done].
      rewrite (GoMap.range_perm _ m'). by apply elem_of_map_to_list.
  - split; [split; [by eexists|by eexists]|]. intros k. split; [by right|].
    by intros [(? & ? & _)|?].
Qed.

Lemma UnmarshalSingle_spec (b : JSON) (e : EmbeddedSchemas_t) :
  (is_Some (EmbeddedSchemas_UnmarshalSingle b e).2
   ↔ is_Some (single_attempt b).2)
  ∧ ∀ k, k ∈ GoMap.keys (EmbeddedSchemas_UnmarshalSingle b e).1 ↔
      ((single_attempt b).2 = None ∧ k = "") ∨ k ∈ GoMap.keys e.
Proof.
  unfold EmbeddedSchemas_UnmarshalSingle. fold (single_attempt b).
  destruct (single_attempt b) as [s [err|]]; cbn [fst snd].
  - split; [done|]. intros k. split; [by right|]. by intros [[? _]|?].
  - split; [done|]. intros k. rewrite keys_set. split.
    + intros [->|?]; [by left|by right].
    + intros [[_ ->]|?]; [by left|by right].
Qed.

Lemma UnmarshalJSON_steps (b : JSON) :
  (EmbeddedSchemas_UnmarshalJSON b).1
  = (EmbeddedSchemas_UnmarshalSingle b
       (EmbeddedSchemas_UnmarshalObject b
          (EmbeddedSchemas_UnmarshalArray b []).1).1).1
  ∧ (is_Some (EmbeddedSchemas_UnmarshalJSON b).2 ↔
     is_Some (EmbeddedSchemas_UnmarshalArray b []).2 ∧
     is_Some (EmbeddedSchemas_UnmarshalObject b
                (EmbeddedSchemas_UnmarshalArray b []).1).2 ∧
     is_Some (EmbeddedSchemas_UnmarshalSingle b
                (EmbeddedSchemas_UnmarshalObject b
                   (EmbeddedSchemas_UnmarshalArray b []).1).1).2).
Proof.
  unfold EmbeddedSchemas_UnmarshalJSON.
  destruct (EmbeddedSchemas_UnmarshalArray b []) as [e1 err1]. cbn [fst snd].
  destruct (EmbeddedSchemas_UnmarshalObject b e1) as [e2 err2]. cbn [fst snd].
  destruct (EmbeddedSchemas_UnmarshalSingle b e2) as [e3 err3]. cbn [fst snd].
  split; [by destruct err1, err2, err3|].
  destruct err1, err2, err3; cbn [snd]; split;
    first [by intros [? ?] | by intros ([? ?] & [? ?] & [? ?]) | by eauto].
Qed.

(** C6: the decoder makes the three attempts, each on the whole value and
    whatever the others did.  The keys of the mapping it leaves are those
    of the attempts that succeeded: "0", "1", ... for the elements of an
    array, the member names of an object, "" for a single schema.  It
    returns an error exactly when all three attempts fail. *)
Theorem EmbeddedSchemas_decode (b : JSON) :
  (is_Some (EmbeddedSchemas_UnmarshalJSON b).2 ↔
   (∃ err, array_attempt b = inr err) ∧
   (∃ err, object_attempt b = inr err) ∧
   is_Some (single_attempt b).2)
  ∧ ∀ k, k ∈ GoMap.keys (EmbeddedSchemas_UnmarshalJSON b).1 ↔
      (∃ schemas i, array_attempt b = inl schemas ∧ i < length schemas ∧
                    k = Itoa (Z.of_nat i))
      ∨ (∃ m, object_attempt b = inl m ∧ is_Some (m !! k))
      ∨ ((single_attempt b).2 = None ∧ k = "").
Proof.
  destruct (UnmarshalJSON_steps b) as [-> ->]. split.
  - rewrite (proj1 (UnmarshalArray_spec b _)),
      (proj1 (UnmarshalObject_spec b _)), (proj1 (UnmarshalSingle_spec b _)).
    done.
  - intros k.
    rewrite (proj2 (UnmarshalSingle_spec b _)),
      (proj2 (UnmarshalObject_spec b _)), (proj2 (UnmarshalArray_spec b _)).
    unfold GoMap.keys. cbn [map]. rewrite elem_of_nil. tauto.
Qed.
End Decode.

(** ** Reference resolution *)

Section Resolve.
Context {V : Type} `{!RefAPI V}.
Abbreviation Schema := (Schema V).
Abbreviation Node := (Node V Schema).
Abbreviation World := (World V).

(** C7: what [resolveLocalPath] returns.  The one segment [""], which is
    what an empty path and the path "/" split into, gives the root itself.
    One segment [k] gives what keyword [k] embeds under the key [""], two
    segments [k1], [k2] give what keyword [k1] embeds under [k2].  Any
    other number of segments, an unknown keyword and a missing key give
    the error "failed to resolve" with the path. *)
Theorem resolveLocalPath_cases (rootSchema : Schema) (str : string) :
  resolveLocalPath [""] rootSchema str = (Some rootSchema, None)
  ∧ refToSchema_local "" rootSchema = (Some rootSchema, None)
  ∧ refToSchema_local "/" rootSchema = (Some rootSchema, None)
  ∧ (∀ k v s,
       k ≠ "" →
       GoMap.get k (nodes rootSchema) = Some v →
       GoMap.get "" (EmbeddedSchemas v) = Some s →
       resolveLocalPath [k] rootSchema str = (s, None))
  ∧ (∀ k1 k2 v s,
       GoMap.get k1 (nodes rootSchema) = Some v →
       GoMap.get k2 (EmbeddedSchemas v) = Some s →
       resolveLocalPath [k1; k2] rootSchema str = (s, None))
  ∧ (∀ split,
       length split ≠ 1 → length split ≠ 2 →
       resolveLocalPath split rootSchema str = failed_to_resolve str)
  ∧ (∀ k,
       k ≠ "" →
       GoMap.get k (nodes rootSchema) = None ∨
       (∃ v, GoMap.get k (nodes rootSchema) = Some v ∧
             GoMap.get "" (EmbeddedSchemas v) = None) →
       resolveLocalPath [k] rootSchema str = failed_to_resolve str)
  ∧ (∀ k1 k2,
       GoMap.get k1 (nodes rootSchema) = None ∨
       (∃ v, GoMap.get k1 (nodes rootSchema) = Some v ∧
             GoMap.get k2 (EmbeddedSchemas v) = None) →
       resolveLocalPath [k1; k2] rootSchema str = failed_to_resolve str).
Proof.
  unfold resolveLocalPath, failed_to_resolve.
  repeat apply conj; try reflexivity.
  - intros k v s Hk Hv Hs. cbn [length nth].
    apply String.eqb_neq in Hk. by rewrite Hk, Hv, Hs.
  - intros k1 k2 v s Hv Hs. cbn [length nth]. by rewrite Hv, Hs.
  - intros [|a [|b [|c split]]] H1 H2; cbn [length] in *; done.
  - intros k Hk H. cbn [length nth]. apply String.eqb_neq in Hk. rewrite Hk.
    destruct H as [->|(v & -> & ->)]; done.
  - intros k1 k2 H. cbn [length nth].
    destruct H as [->|(v & -> & ->)]; done.
Qed.



Lemma range_update_pure {A : Type} (f : A → World → outcome (A * World))
      (g : A → A) (m : list (string * A)) (w : World) :
  (∀ k a, (k, a) ∈ m → f a w = Done (g a, w)) →
  range_update f m w = Done (map (λ ka : string * A, (ka.1, g ka.2)) m, w).
Proof.
  induction m as [|[k a] m IH]; intros H; [done|].
  cbn [range_update]. rewrite (H k a) by (apply elem_of_cons; by left).
  cbn. rewrite IH; [done|]. intros k' a' Hin. apply (H k').
  apply elem_of_cons; by right.
Qed.

Lemma resolveSelf_no_ref (fuel : nat) (rootSchema : Schema)
      (loadExternal : bool) (s : Schema) (w : World) :
  hasRef s = None →
  resolveSelf (S fuel) rootSchema loadExternal s w = Done (s, w).
Proof. intros H. cbn [resolveSelf]. by rewrite H. Qed.

Lemma bind_Done {A B : Type} (a : A) (f : A → outcome B) :
  (Done a ≫= f) = f a.
Proof. reflexivity. Qed.

Lemma resolveSelfAndBelow_S (fuel : nat) (rootSchema : Schema)
      (loadExternal : bool) (s : Schema) (w : World) :
  resolveSelfAndBelow (S fuel) rootSchema loadExternal s w
  = (resolveSelf fuel rootSchema loadExternal s w ≫= λ '(s1, w1),
       resolveBelow_with
         (resolveSelfAndBelow fuel rootSchema loadExternal) s1 w1).
Proof. reflexivity. Qed.

(** On a tree without references and without nil pointers the traversal
    returns, given fuel beyond the height of the tree, and what it did is
    [mark_below]; the world is as before. *)
Lemma resolve_ref_free (fuel : nat) (rootSchema : Schema)
      (loadExternal : bool) :
  ∀ (s : Schema) (w : World),
    depth s < fuel → ref_free s = true → non_nil s = true →
    resolveSelfAndBelow fuel rootSchema loadExternal s w
    = Done (mark_below s, w).
Proof.
  induction fuel as [|fuel IH]; intros [ns r] w Hd Hrf Hnn; [lia|].
  rewrite resolveSelfAndBelow_S.
  destruct fuel as [|fuel]; [cbn [depth] in Hd; lia|].
  cbn [ref_free] in Hrf. apply andb_true_iff in Hrf as [Href Hrf].
  rewrite resolveSelf_no_ref.
  2:{ unfold hasRef. simpl. by destruct (hasRef_nodes ns). }
  rewrite bind_Done. unfold resolveBelow_with. cbn [resolved mark_below].
  destruct r; [done|].
  cbn [nodes non_nil] in *.
  rewrite (range_update_pure _
             (λ n : Node, Build_Node
                (map (λ ko : string * option Schema,
                        (ko.1, mark_below <$> ko.2))
                     (EmbeddedSchemas n)) (Validator_ n))); [done|].
  intros k n Hn.
  rewrite (range_update_pure _ (fmap mark_below)); [done|].
  intros k' o Ho.
  pose proof (proj1 (forall_embedded_spec _ _) Hnn k n k' o Hn Ho) as Ho'.
  destruct o as [c|]; [|done].
  assert (embedded_in c ns) as Hc by (by exists k, n, k').
  rewrite IH; [done| | |done].
  - pose proof (depth_embedded c ns false Hc). lia.
  - by eapply forall_embedded_Some in Hrf.
Qed.

End Resolve.

(** ** The statements at concrete inputs *)

Lemma resolveLocalPath_cases_witness :
  GoMap.get "definitions" (nodes Examples.document)
  = Some (Build_Node [("a", Some (Build_Schema [] false))] (other tt)) ∧
  GoMap.get "a" [("a", Some (@Build_Schema unit [] false))]
  = Some (Some (Build_Schema [] false)) ∧
  resolveLocalPath ["definitions"; "a"] Examples.document "definitions/a"
  = (Some (Build_Schema [] false), None) ∧
  resolveLocalPath ["definitions"; "a"; "b"] Examples.document
                   "definitions/a/b"
  = failed_to_resolve "definitions/a/b".
Proof.
  destruct (resolveLocalPath_cases Examples.document "definitions/a")
    as (_ & _ & _ & _ & Htwo & _).
  destruct (resolveLocalPath_cases Examples.document "definitions/a/b")
    as (_ & _ & _ & _ & _ & Hdeep & _).
  split; [reflexivity|]. split; [reflexivity|]. split.
  - apply (Htwo "definitions" "a"
                (Build_Node [("a", Some (Build_Schema [] false))] (other tt))
                (Some (Build_Schema [] false))); reflexivity.
  - apply (Hdeep ["definitions"; "a"; "b"]); discriminate.
Defined.




(** A value that is valid in two shapes: the object attempt gives the key
    "a", the single-schema attempt the key "". *)
Example EmbeddedSchemas_two_shapes :
  @EmbeddedSchemas_UnmarshalJSON unit Examples.ref_api Examples.sorted_range
    (JObject [("a", JObject [])])
  = ([("a", Some (Build_Schema [] false)); ("", Some (Build_Schema [] false))],
     None).
Proof. reflexivity. Qed.

(** * Further properties *)

(** ** Loops that append *)

(** A loop that only appends to its accumulator. *)
Lemma fold_left_appends {A B : Type} (g : list B → A → list B)
      (f : A → list B) (l : list A) (acc : list B) :
  (∀ acc x, g acc x = acc ++ f x) →
  fold_left g l acc = acc ++ flat_map f l.
Proof.
  intros Hg. revert acc. induction l as [|x l IH]; intros acc; cbn [fold_left flat_map].
  - by rewrite app_nil_r.
  - by rewrite IH, Hg, <- app_assoc.
Qed.

Lemma flat_map_nil_iff {A B : Type} (f : A → list B) (l : list A) :
  flat_map f l = [] ↔ ∀ x, x ∈ l → f x = [].
Proof.
  induction l as [|a l IH]; cbn [flat_map].
  - split; [|done]. intros _ x Hx. by apply elem_of_nil in Hx.
  - split.
    + intros [Ha Hl]%app_eq_nil x [->|Hx]%elem_of_cons; [done|]. by apply IH.
    + intros H. rewrite (H a) by (apply elem_of_cons; by left). cbn.
      apply IH. intros x Hx. apply H. apply elem_of_cons. by right.
Qed.

Section Strconv.
Lemma string_of_uint_first (d : Decimal.uint) :
  match NilZero.string_of_uint d with
  | EmptyString => False
  | String c _ => Ascii.eqb c "+" = false ∧ Ascii.eqb c "-" = false
  end.
Proof. destruct d; cbn; done. Qed.

Lemma ParseUint_to_uint (p : positive) :
  strconv.ParseUint (NilZero.string_of_uint (Pos.to_uint p)) = Some (Z.pos p).
Proof.
  unfold strconv.ParseUint.
  pose proof (DecimalZ.of_to (Z.pos p)) as Hp. cbn [Z.to_int Z.of_int] in Hp.
  rewrite NilZero.usu.
  - cbn. by rewrite Hp.
  - intros Hnil. rewrite Hnil in Hp. discriminate.
Qed.

Lemma ParseInt_Itoa (n : Z) :
  (- 2 ^ 63 ≤ n < 2 ^ 63)%Z → strconv.ParseInt (Itoa n) = Some n.
Proof.
  intros Hn. unfold Itoa. destruct n as [|p|p]; cbn [Z.to_int NilZero.string_of_int].
  - reflexivity.
  - pose proof (string_of_uint_first (Pos.to_uint p)) as Hf.
    pose proof (ParseUint_to_uint p) as Hu.
    unfold strconv.ParseInt.
    destruct (NilZero.string_of_uint (Pos.to_uint p)) as [|c r]; [done|].
    destruct Hf as [-> ->]. rewrite Hu.
    destruct (Z.ltb_spec (Z.pos p) (2 ^ 63)); [done|lia].
  - unfold strconv.ParseInt. rewrite Ascii.eqb_refl.
    change (Ascii.eqb "-" "+") with false. cbv iota.
    rewrite ParseUint_to_uint.
    destruct (Z.leb_spec (Z.pos p) (2 ^ 63)); [done|lia].
Qed.
End Strconv.

(** What [json.Unmarshal] into an [int] hands to the two bound decoders. *)
Lemma Unmarshal_int_cases (b : JSON) (n : Z) :
  json.Unmarshal_int b 0%Z = (n, None) →
  b = JNull ∧ n = 0%Z ∨
  ∃ literal, b = JNumber literal ∧ strconv.ParseInt literal = Some n.
Proof.
  destruct b; cbn [json.Unmarshal_int]; try done.
  - intros [= <-]. by left.
  - destruct (strconv.ParseInt literal) eqn:Hp; [|done].
    intros [= <-]. right. by eexists.
Qed.

Lemma maxProperties_decode_inv (b : JSON) (m0 m : maxProperties.t) :
  maxProperties.UnmarshalJSON b m0 = (m, None) →
  (0 ≤ m)%Z ∧ json.Unmarshal_int b 0%Z = (m, None).
Proof.
  unfold maxProperties.UnmarshalJSON.
  destruct (json.Unmarshal_int b 0%Z) as [n [err|]]; [done|].
  destruct (Z.ltb_spec n 0); [done|]. by intros [= <-].
Qed.

Lemma minProperties_decode_inv (b : JSON) (m0 m : minProperties.t) :
  minProperties.UnmarshalJSON b m0 = (m, None) →
  (0 ≤ m)%Z ∧ json.Unmarshal_int b 0%Z = (m, None).
Proof.
  unfold minProperties.UnmarshalJSON.
  destruct (json.Unmarshal_int b 0%Z) as [n [err|]]; [done|].
  destruct (Z.ltb_spec n 0); [done|]. by intros [= <-].
Qed.

(** X1: [maxProperties.UnmarshalJSON] stores a bound only when the value
    is [null] (the bound is then 0) or a number whose literal
    [strconv.ParseInt] reads as an integer that is not negative; the
    stored bound is that integer, so it is never negative.  On any error
    the receiver keeps its value.  The decimal literal of [n] decodes to
    [n] for [0 <= n < 2^63], and to the error "maxProperties cannot be
    smaller than zero" for a negative [n]. *)
Theorem maxProperties_decodes_bound (b : JSON) (m : maxProperties.t) :
  match maxProperties.UnmarshalJSON b m with
  | (m', None) =>
      (0 ≤ m')%Z ∧
      (b = JNull ∧ m' = 0%Z ∨
       ∃ literal, b = JNumber literal ∧ strconv.ParseInt literal = Some m')
  | (m', Some _) => m' = m
  end
  ∧ (∀ n, (0 ≤ n < 2 ^ 63)%Z →
          maxProperties.UnmarshalJSON (JNumber (Itoa n)) m = (n, None))
  ∧ (∀ n, (- 2 ^ 63 ≤ n < 0)%Z →
          maxProperties.UnmarshalJSON (JNumber (Itoa n)) m
          = (m, Some "maxProperties cannot be smaller than zero")).
Proof.
  split; [|split].
  - destruct (maxProperties.UnmarshalJSON b m) as [m' [err|]] eqn:H.
    + revert H. unfold maxProperties.UnmarshalJSON.
      destruct (json.Unmarshal_int b 0%Z) as [n [e|]]; [by intros [= <- _]|].
      destruct (Z.ltb_spec n 0); [by intros [= <- _]|done].
    + destruct (maxProperties_decode_inv _ _ _ H) as [Hm Hu].
      split; [done|]. by apply Unmarshal_int_cases.
  - intros n Hn. unfold maxProperties.UnmarshalJSON. cbn [json.Unmarshal_int].
    rewrite ParseInt_Itoa by lia. destruct (Z.ltb_spec n 0); [lia|done].
  - intros n Hn. unfold maxProperties.UnmarshalJSON. cbn [json.Unmarshal_int].
    rewrite ParseInt_Itoa by lia. destruct (Z.ltb_spec n 0); [done|lia].
Qed.

(** X2: with a bound that [maxProperties.UnmarshalJSON] decoded,
    [Validate] accepts an object exactly when it has at most that many
    keys, never reports more than one error, and accepts the empty
    object. *)
Theorem maxProperties_enforced (b : JSON) (m0 m : maxProperties.t)
        (val : list (string * JSON)) :
  maxProperties.UnmarshalJSON b m0 = (m, None) →
  (maxProperties.Validate m (JObject val) = [] ↔ (Z.of_nat (length val) ≤ m)%Z)
  ∧ length (maxProperties.Validate m (JObject val)) ≤ 1
  ∧ maxProperties.Validate m (JObject []) = [].
Proof.
  intros Hdec. destruct (maxProperties_decode_inv _ _ _ Hdec) as [Hm _].
  unfold maxProperties.Validate. cbn [length].
  destruct (Z.gtb_spec (Z.of_nat (length val)) m);
    destruct (Z.gtb_spec (Z.of_nat 0) m); cbn [length]; try lia;
    (split; [split; [done || lia|done || lia]|split; [lia|done]]).
Qed.

(** X3: [minProperties.UnmarshalJSON] stores a bound under the same
    conditions as [maxProperties] does, the bound is never negative, and
    with it [Validate] accepts an object exactly when it has at least that
    many keys and never reports more than one error.  On any error the
    receiver keeps its value; a negative literal gives "minProperties
    cannot be smaller than zero". *)
Theorem minProperties_enforced (b : JSON) (m0 : minProperties.t) :
  match minProperties.UnmarshalJSON b m0 with
  | (m, None) =>
      (0 ≤ m)%Z ∧
      (b = JNull ∧ m = 0%Z ∨
       ∃ literal, b = JNumber literal ∧ strconv.ParseInt literal = Some m) ∧
      ∀ val : list (string * JSON),
        (minProperties.Validate m (JObject val) = []
         ↔ (m ≤ Z.of_nat (length val))%Z)
        ∧ length (minProperties.Validate m (JObject val)) ≤ 1
  | (m, Some _) => m = m0
  end
  ∧ (∀ n, (0 ≤ n < 2 ^ 63)%Z →
          minProperties.UnmarshalJSON (JNumber (Itoa n)) m0 = (n, None))
  ∧ (∀ n, (- 2 ^ 63 ≤ n < 0)%Z →
          minProperties.UnmarshalJSON (JNumber (Itoa n)) m0
          = (m0, Some "minProperties cannot be smaller than zero")).
Proof.
  split; [|split].
  - destruct (minProperties.UnmarshalJSON b m0) as [m [err|]] eqn:H.
    + revert H. unfold minProperties.UnmarshalJSON.
      destruct (json.Unmarshal_int b 0%Z) as [n [e|]]; [by intros [= <- _]|].
      destruct (Z.ltb_spec n 0); [by intros [= <- _]|done].
    + destruct (minProperties_decode_inv _ _ _ H) as [Hm Hu].
      split; [done|]. split; [by apply Unmarshal_int_cases|].
      intros val. unfold minProperties.Validate.
      destruct (Z.ltb_spec (Z.of_nat (length val)) m); cbn [length];
        (split; [split; [done || lia|done || lia]|lia]).
  - intros n Hn. unfold minProperties.UnmarshalJSON. cbn [json.Unmarshal_int].
    rewrite ParseInt_Itoa by lia. destruct (Z.ltb_spec n 0); [lia|done].
  - intros n Hn. unfold minProperties.UnmarshalJSON. cbn [json.Unmarshal_int].
    rewrite ParseInt_Itoa by lia. destruct (Z.ltb_spec n 0); [done|lia].
Qed.

(** ** Ranged maps, continued *)

Section Assoc.
Context {A : Type}.

Lemma get_Some_elem (k : string) (a : A) (m : list (string * A)) :
  GoMap.get k m = Some a → (k, a) ∈ m.
Proof.
  induction m as [|[k' a'] m IH]; cbn [GoMap.get]; [done|].
  destruct (String.eqb_spec k k') as [->|Hne].
  - intros [= ->]. apply elem_of_cons. by left.
  - intros H. apply elem_of_cons. right. by apply IH.
Qed.

Lemma get_None_keys (k : string) (m : list (string * A)) :
  GoMap.get k m = None ↔ k ∉ map fst m.
Proof.
  induction m as [|[k' a'] m IH]; cbn [GoMap.get map fst].
  - split; [|done]. intros _ H. by apply elem_of_nil in H.
  - rewrite not_elem_of_cons. destruct (String.eqb_spec k k') as [->|Hne].
    + split; [done|]. by intros [? _].
    + rewrite IH. tauto.
Qed.

Lemma has_keys (k : string) (m : list (string * A)) :
  GoMap.has k m = true ↔ k ∈ map fst m.
Proof.
  unfold GoMap.has. destruct (GoMap.get k m) as [a|] eqn:H.
  - split; [|done]. intros _. apply get_Some_elem in H.
    apply list_elem_of_In, in_map_iff. exists (k, a).
    split; [done|]. by apply list_elem_of_In.
  - apply get_None_keys in H. split; [done|]. by intros ?.
Qed.

Lemma has_false_keys (k : string) (m : list (string * A)) :
  GoMap.has k m = false ↔ k ∉ map fst m.
Proof. rewrite <- has_keys. by destruct (GoMap.has k m). Qed.

Lemma get_NoDup (k : string) (a : A) (m : list (string * A)) :
  NoDup (map fst m) → (k, a) ∈ m → GoMap.get k m = Some a.
Proof.
  induction m as [|[k' a'] m IH]; cbn [GoMap.get map fst]; intros Hnd Hin.
  - by apply elem_of_nil in Hin.
  - apply NoDup_cons in Hnd as [Hk' Hnd].
    apply elem_of_cons in Hin as [[= -> ->]|Hin].
    + by rewrite String.eqb_refl.
    + destruct (String.eqb_spec k k') as [->|Hne]; [|by apply IH].
      exfalso. apply Hk'. apply list_elem_of_In, in_map_iff.
      exists (k', a). split; [done|]. by apply list_elem_of_In.
Qed.
End Assoc.

Section Ranges.
Context `{!GoMap.RangeOrder}.

Lemma range_NoDup {A : Type} (m : gmap string A) :
  NoDup (map fst (GoMap.range m)).
Proof.
  change (NoDup ((GoMap.range m).*1)). rewrite (GoMap.range_perm A m).
  apply NoDup_fst_map_to_list.
Qed.

Lemma range_keys {A : Type} (m : gmap string A) (k : string) :
  k ∈ map fst (GoMap.range m) ↔ is_Some (m !! k).
Proof.
  split.
  - intros ([k' a] & Heq & Hin)%list_elem_of_In%in_map_iff. simpl in Heq. subst.
    apply list_elem_of_In, range_lookup in Hin. by eexists.
  - intros [a Ha]. apply list_elem_of_In, in_map_iff. exists (k, a).
    split; [done|]. by apply list_elem_of_In, range_lookup.
Qed.

Lemma get_range {A : Type} (m : gmap string A) (k : string) :
  GoMap.get k (GoMap.range m) = m !! k.
Proof.
  destruct (m !! k) as [a|] eqn:Hm.
  - apply get_NoDup; [apply range_NoDup|by apply range_lookup].
  - apply get_None_keys. rewrite range_keys, Hm. by intros [? ?].
Qed.
End Ranges.

Lemma fold_insert_unit_lookup (l : list string) (m0 : gmap string ()) (k : string) :
  is_Some (fold_left (fun r val => <[val := tt]> r) l m0 !! k)
  ↔ k ∈ l ∨ is_Some (m0 !! k).
Proof.
  revert m0. induction l as [|x l IH]; intros m0; cbn [fold_left].
  - rewrite elem_of_nil. tauto.
  - rewrite IH, lookup_insert_is_Some, elem_of_cons.
    destruct (decide (x = k)) as [->|]; intuition congruence.
Qed.

Lemma required_Validate_closed (r : required.t) (data : list (string * JSON)) :
  required.Validate r (JObject data)
  = flat_map (fun key => if GoMap.has key data then [] else [required_error key]) r.
Proof.
  unfold required.Validate.
  rewrite (fold_left_appends _
             (fun key => if GoMap.has key data then [] else [required_error key])).
  - done.
  - intros acc key. destruct (GoMap.has key data); [by rewrite app_nil_r|done].
Qed.

Lemma required_valid_iff (r : required.t) (data : list (string * JSON)) :
  required.Validate r (JObject data) = []
  ↔ ∀ key, key ∈ r → key ∈ GoMap.keys data.
Proof.
  rewrite required_Validate_closed, flat_map_nil_iff. split.
  - intros H key Hkey. apply has_keys. specialize (H key Hkey).
    by destruct (GoMap.has key data).
  - intros H key Hkey. apply H, has_keys in Hkey. by rewrite Hkey.
Qed.

(** X4: [required.Validate] accepts an object exactly when every
    required key is a key of the object; it reports one error for each
    required key that is missing, and the error names the key. *)
Theorem required_reports_missing (r : required.t) (data : list (string * JSON)) :
  (required.Validate r (JObject data) = []
   ↔ ∀ key, key ∈ r → key ∈ GoMap.keys data)
  ∧ length (required.Validate r (JObject data))
    = length (List.filter (fun key => negb (GoMap.has key data)) r)
  ∧ ∀ key, key ∈ r → key ∉ GoMap.keys data →
           required_error key ∈ required.Validate r (JObject data).
Proof.
  split; [apply required_valid_iff|]. rewrite required_Validate_closed. split.
  - induction r as [|key r IH]; [done|]. cbn [flat_map List.filter].
    rewrite length_app, IH. by destruct (GoMap.has key data).
  - intros key Hkey Hmiss. apply has_false_keys in Hmiss.
    apply list_elem_of_In, in_flat_map. exists key.
    split; [by apply list_elem_of_In|]. rewrite Hmiss. by left.
Qed.

(** X5: [required.UnmarshalJSON] succeeds exactly when the value decodes
    as a list of strings; the receiver then holds each string of the list
    once, and [Validate] with it accepts an object exactly when every
    string of the list is a key of the object.  When the value does not
    decode, the receiver keeps its value and the decoder's error is
    returned. *)
Theorem required_decoded `{!GoMap.RangeOrder} (b : JSON) (r0 : required.t) :
  match required.UnmarshalJSON b r0 with
  | (r, None) =>
      ∃ l, json.Unmarshal_strings b = inl l ∧
           NoDup r ∧ (∀ key, key ∈ r ↔ key ∈ l) ∧
           ∀ data : list (string * JSON),
             required.Validate r (JObject data) = []
             ↔ ∀ key, key ∈ l → key ∈ GoMap.keys data
  | (r, Some err) => r = r0 ∧ json.Unmarshal_strings b = inr err
  end.
Proof.
  unfold required.UnmarshalJSON.
  destruct (json.Unmarshal_strings b) as [l|err]; [|done].
  assert (∀ key, key ∈ map fst (GoMap.range (required.make_set l)) ↔ key ∈ l)
    as Hkeys.
  { intros key. rewrite range_keys. unfold required.make_set.
    rewrite fold_insert_unit_lookup, lookup_empty.
    split; [intros [?|[? ?]]; done|by left]. }
  exists l. split; [done|]. split; [apply range_NoDup|]. split; [done|].
  intros data. rewrite required_valid_iff.
  split; intros Hall key Hkey; apply Hall; by apply Hkeys.
Qed.

Lemma app_nil_intro {A : Type} (l1 l2 : list A) :
  l1 = [] → l2 = [] → l1 ++ l2 = [].
Proof. by intros -> ->. Qed.

Section Dependencies.
Context {Schema : Type} `{!SchemaAPI Schema}.

Lemma dependencies_Validate_closed (d : dependencies.t Schema)
      (val : list (string * JSON)) :
  dependencies.Validate d (JObject val)
  = flat_map (schema_dependency_errors val) (dependencies.schemaDeps d)
    ++ flat_map (property_dependency_errors val) (dependencies.propertyDeps d).
Proof.
  unfold dependencies.Validate.
  rewrite (fold_left_appends _ (property_dependency_errors val)).
  - f_equal.
    rewrite (fold_left_appends _ (schema_dependency_errors val)); [done|].
    intros acc [key schema]. unfold schema_dependency_errors. cbn [fst snd].
    destruct (GoMap.has key val); [done|by rewrite app_nil_r].
  - intros acc [key set]. unfold property_dependency_errors. cbn [fst snd].
    destruct (GoMap.has key val); [|by rewrite app_nil_r].
    apply fold_left_appends. intros acc' a.
    destruct (GoMap.has a val); [by rewrite app_nil_r|done].
Qed.

(** X6: [dependencies.Validate] accepts an object exactly when, for every
    dependency whose key is a key of the object, the schema accepts the
    whole object (not the value under the key) and every companion is a
    key of the object.  A dependency whose key the object lacks is
    ignored: when the object has none of the keys, there is no error. *)
Theorem dependencies_valid_iff (d : dependencies.t Schema)
        (val : list (string * JSON)) :
  (dependencies.Validate d (JObject val) = [] ↔
   (∀ key schema,
      (key, schema) ∈ dependencies.schemaDeps d → key ∈ GoMap.keys val →
      Schema_Validate schema (JObject val) = []) ∧
   (∀ key set a,
      (key, set) ∈ dependencies.propertyDeps d → key ∈ GoMap.keys val →
      a ∈ set → a ∈ GoMap.keys val))
  ∧ ((∀ key, key ∈ GoMap.keys (dependencies.schemaDeps d) → key ∉ GoMap.keys val) →
     (∀ key, key ∈ GoMap.keys (dependencies.propertyDeps d) → key ∉ GoMap.keys val) →
     dependencies.Validate d (JObject val) = []).
Proof.
  rewrite dependencies_Validate_closed. split.
  - split.
    + intros [Hs Hp]%app_eq_nil. split.
      * intros key schema Hin Hkey.
        pose proof (proj1 (flat_map_nil_iff _ _) Hs _ Hin) as H.
        unfold schema_dependency_errors in H. cbn [fst snd] in H.
        apply has_keys in Hkey. by rewrite Hkey in H.
      * intros key set a Hin Hkey Ha.
        pose proof (proj1 (flat_map_nil_iff _ _) Hp _ Hin) as H.
        unfold property_dependency_errors in H. cbn [fst snd] in H.
        apply has_keys in Hkey. rewrite Hkey in H.
        pose proof (proj1 (flat_map_nil_iff _ _) H _ Ha) as H'.
        cbv beta in H'. apply has_keys. by destruct (GoMap.has a val).
    + intros [Hs Hp]. apply app_nil_intro; apply flat_map_nil_iff.
      * intros [key schema] Hin. unfold schema_dependency_errors. cbn [fst snd].
        destruct (GoMap.has key val) eqn:Hkey; [|done].
        apply (Hs key); [done|by apply has_keys].
      * intros [key set] Hin. unfold property_dependency_errors. cbn [fst snd].
        destruct (GoMap.has key val) eqn:Hkey; [|done].
        apply flat_map_nil_iff. intros a Ha.
        assert (a ∈ GoMap.keys val) as Hk
            by (apply (Hp key set a); [done|by apply has_keys|done]).
        apply has_keys in Hk. by rewrite Hk.
  - intros Hs Hp. apply app_nil_intro; apply flat_map_nil_iff.
    + intros [key schema] Hin. unfold schema_dependency_errors. cbn [fst snd].
      destruct (GoMap.has key val) eqn:Hkey; [|done]. exfalso.
      apply (Hs key); [|by apply has_keys].
      apply list_elem_of_In, in_map_iff. exists (key, schema).
      split; [done|by apply list_elem_of_In].
    + intros [key set] Hin. unfold property_dependency_errors. cbn [fst snd].
      destruct (GoMap.has key val) eqn:Hkey; [|done]. exfalso.
      apply (Hp key); [|by apply has_keys].
      apply list_elem_of_In, in_map_iff. exists (key, set).
      split; [done|by apply list_elem_of_In].
Qed.

(** X7: for a property dependency whose key is in the object,
    [dependencies.Validate] reports one error for each companion that the
    object lacks, in the order the range visits the companions, and
    nothing else. *)
Theorem dependencies_property_errors (key : string) (set : list string)
        (val : list (string * JSON)) :
  key ∈ GoMap.keys val →
  dependencies.Validate
    {| dependencies.schemaDeps := @nil (string * Schema);
       dependencies.propertyDeps := [(key, set)] |} (JObject val)
  = map dependency_error (List.filter (fun a => negb (GoMap.has a val)) set).
Proof.
  intros Hkey. rewrite dependencies_Validate_closed.
  cbn [dependencies.schemaDeps dependencies.propertyDeps flat_map app].
  unfold property_dependency_errors. cbn [fst snd].
  apply has_keys in Hkey. rewrite Hkey, app_nil_r.
  induction set as [|a set IH]; [done|]. cbn [flat_map List.filter].
  rewrite IH. by destruct (GoMap.has a val).
Qed.
End Dependencies.

Section DependenciesDecode.
Context {Schema : Type} `{!SchemaAPI Schema} `{!GoMap.RangeOrder}.

(** X8: [dependencies.UnmarshalJSON] on an object (or [null]) tries each
    member both ways.  A key has a schema dependency exactly when its value
    decodes as a schema, and a property dependency exactly when its value
    decodes as a list of strings, whose distinct strings are then the
    companions; a value that decodes both ways gives both.  The call
    returns the error "no valid schema or property dependency validators"
    exactly when no member decodes either way, and no other error. *)
Theorem dependencies_decoded (b : JSON) (d : dependencies.t Schema)
        (c : gmap string JSON) :
  json.Unmarshal_raw_map b = inl c →
  let d' := (dependencies.UnmarshalJSON b d).1 in
  (∀ key, GoMap.get key (dependencies.schemaDeps d')
          = v ← c !! key;
            match Schema_UnmarshalJSON v Schema_zero with
            | (s, None) => Some s
            | (_, Some _) => None
            end)
  ∧ (∀ key v props,
       c !! key = Some v → json.Unmarshal_strings v = inl props →
       ∃ set, GoMap.get key (dependencies.propertyDeps d') = Some set ∧
              NoDup set ∧ ∀ a, a ∈ set ↔ a ∈ props)
  ∧ (∀ key, (c !! key = None ∨
             ∃ v err, c !! key = Some v ∧ json.Unmarshal_strings v = inr err) →
            GoMap.get key (dependencies.propertyDeps d') = None)
  ∧ ((dependencies.UnmarshalJSON b d).2
     = Some "no valid schema or property dependency validators"
     ↔ ∀ key v, c !! key = Some v →
                is_Some (Schema_UnmarshalJSON v Schema_zero).2 ∧
                ∃ err, json.Unmarshal_strings v = inr err)
  ∧ ((dependencies.UnmarshalJSON b d).2 = None
     ∨ (dependencies.UnmarshalJSON b d).2
       = Some "no valid schema or property dependency validators").
Proof.
  intros Hc d'.
  assert (d' =
          {| dependencies.schemaDeps :=
               GoMap.range (dependencies.decode_schemaDeps c);
             dependencies.propertyDeps :=
               GoMap.range ((fun set : gmap string () => map fst (GoMap.range set))
                              <$> dependencies.decode_propertyDeps c) |}) as Hd'.
  { unfold d', dependencies.UnmarshalJSON. rewrite Hc.
    by destruct ((size (dependencies.decode_propertyDeps c) =? 0)
                 && (size (dependencies.decode_schemaDeps c) =? 0)). }
  assert (∀ key v, c !! key = Some v →
            dependencies.decode_propertyDeps c !! key
            = match json.Unmarshal_strings v with
              | inl props =>
                  Some (fold_left (fun set p => <[p := tt]> set) props ∅)
              | inr _ => None
              end) as Hprop.
  { intros key v Hv. unfold dependencies.decode_propertyDeps.
    by rewrite lookup_omap, Hv. }
  assert (∀ key v, c !! key = Some v →
            dependencies.decode_schemaDeps c !! key
            = match Schema_UnmarshalJSON v Schema_zero with
              | (s, None) => Some s
              | (_, Some _) => None
              end) as Hsch.
  { intros key v Hv. unfold dependencies.decode_schemaDeps.
    by rewrite lookup_omap, Hv. }
  rewrite Hd'. cbn [dependencies.schemaDeps dependencies.propertyDeps].
  split; [|split; [|split; [|split]]].
  - intros key. rewrite get_range. unfold dependencies.decode_schemaDeps.
    by rewrite lookup_omap.
  - intros key v props Hv Hprops. rewrite get_range, lookup_fmap.
    rewrite (Hprop key v Hv), Hprops. cbn. eexists. split; [done|].
    split; [apply range_NoDup|]. intros a.
    rewrite range_keys, fold_insert_unit_lookup, lookup_empty.
    split; [intros [?|[? ?]]; done|by left].
  - intros key Hkey. rewrite get_range, lookup_fmap.
    destruct Hkey as [Hnone|(v & err & Hv & Herr)].
    + unfold dependencies.decode_propertyDeps. by rewrite lookup_omap, Hnone.
    + by rewrite (Hprop key v Hv), Herr.
  - unfold dependencies.UnmarshalJSON. rewrite Hc.
    destruct (Nat.eqb_spec (size (dependencies.decode_propertyDeps c)) 0)
      as [Hp|Hp];
      [destruct (Nat.eqb_spec (size (dependencies.decode_schemaDeps c)) 0)
        as [Hs|Hs]|]; cbn [andb snd].
    + split; [|done]. intros _ key v Hv.
      apply map_size_empty_inv in Hp, Hs.
      pose proof (Hprop key v Hv) as H1. pose proof (Hsch key v Hv) as H2.
      rewrite Hp, lookup_empty in H1. rewrite Hs, lookup_empty in H2.
      split.
      * by destruct (Schema_UnmarshalJSON v Schema_zero) as [? [?|]].
      * destruct (json.Unmarshal_strings v); [done|by eexists].
    + split; [done|]. intros Hall. exfalso. apply Hs.
      apply map_size_empty_iff, map_empty. intros key.
      destruct (c !! key) as [v|] eqn:Hv.
      * rewrite (Hsch key v Hv). destruct (Hall key v Hv) as [[e He] _].
        destruct (Schema_UnmarshalJSON v Schema_zero) as [? [?|]]; done.
      * unfold dependencies.decode_schemaDeps. by rewrite lookup_omap, Hv.
    + split; [done|]. intros Hall. exfalso. apply Hp.
      apply map_size_empty_iff, map_empty. intros key.
      destruct (c !! key) as [v|] eqn:Hv.
      * rewrite (Hprop key v Hv). destruct (Hall key v Hv) as [_ [e He]].
        by rewrite He.
      * unfold dependencies.decode_propertyDeps. by rewrite lookup_omap, Hv.
  - unfold dependencies.UnmarshalJSON. rewrite Hc.
    destruct ((size (dependencies.decode_propertyDeps c) =? 0)
              && (size (dependencies.decode_schemaDeps c) =? 0));
      [by right|by left].
Qed.
End DependenciesDecode.

(** ** [Validate] of [properties] and [patternProperties] over an object *)

Section PropertiesAccount.
Context {Schema : Type} `{!SchemaAPI Schema}.
Context {Regexp : Type} `{!RegexpAPI Regexp}.

Lemma Validate_key_account (p : properties.t Schema Regexp)
      (dataKey : string) (dataVal : JSON) (valErrs : list ValidationError) :
  properties.Validate_key p dataKey dataVal valErrs
  = if forbidden p dataKey then [not_allowed]
    else valErrs ++ key_errors p (dataKey, dataVal).
Proof.
  unfold properties.Validate_key. rewrite match_key_spec.
  unfold properties.additional, forbidden, key_errors, not_allowed.
  cbn [fst snd].
  destruct (matched p dataKey) eqn:Hm; cbn [negb andb].
  - by rewrite app_nil_r.
  - destruct (unmatched_no_errors p dataKey dataVal Hm) as [-> ->].
    cbn [app]. rewrite app_nil_r.
    destruct (properties.additionalPropertiesObject p); [done|].
    destruct (properties.additionalPropertiesBool p); cbn [negb];
      [by rewrite app_nil_r|done].
Qed.

Lemma Validate_loop_allowed (p : properties.t Schema Regexp)
      (l : list (string * JSON)) (valErrs : list ValidationError) :
  (∀ entry, entry ∈ l → forbidden p entry.1 = false) →
  fold_left
    (fun valErrs '(dataKey, dataVal) =>
       properties.Validate_key p dataKey dataVal valErrs) l valErrs
  = valErrs ++ flat_map (key_errors p) l.
Proof.
  revert valErrs. induction l as [|[k v] l IH]; intros valErrs Hall;
    cbn [fold_left flat_map].
  - by rewrite app_nil_r.
  - rewrite IH
      by (intros entry Hin; apply Hall, elem_of_cons; by right).
    rewrite Validate_key_account.
    pose proof (Hall (k, v) ltac:(apply elem_of_cons; by left)) as Hk.
    cbn [fst] in Hk. by rewrite Hk, <- app_assoc.
Qed.

(** X9: when no key of the object is one that the boolean form of
    [additionalProperties] forbids, [properties.Validate] returns, in the
    order the object is ranged, the errors of every entry: those of the
    schema [properties] names for the key, then those of every matching
    pattern, then, for a key that matched nothing, those of the
    [additionalProperties] schema. *)
Theorem properties_accumulates (p : properties.t Schema Regexp)
        (dataMap : list (string * JSON)) :
  (∀ entry, entry ∈ dataMap → forbidden p entry.1 = false) →
  properties.Validate p (JObject dataMap) = flat_map (key_errors p) dataMap.
Proof.
  intros Hall. cbn [properties.Validate].
  by rewrite Validate_loop_allowed.
Qed.

(** X10: what [properties.Validate] returns is decided from the last
    forbidden key on: the result is the one error "Additional properties
    aren't allowed" followed by the errors of the entries ranged after
    that key; nothing collected before it is kept. *)
Theorem properties_last_forbidden (p : properties.t Schema Regexp)
        (before after : list (string * JSON)) (dataKey : string)
        (dataVal : JSON) :
  forbidden p dataKey = true →
  (∀ entry, entry ∈ after → forbidden p entry.1 = false) →
  properties.Validate p (JObject (before ++ (dataKey, dataVal) :: after))
  = not_allowed :: flat_map (key_errors p) after.
Proof.
  intros Hf Hall. cbn [properties.Validate].
  rewrite fold_left_app. cbn [fold_left].
  rewrite Validate_key_account, Hf.
  by rewrite Validate_loop_allowed.
Qed.

(** X11: the verdict of [properties.Validate].  The result is empty
    exactly when no key of the object is forbidden and no entry has an
    error of its own: a forbidden key drops what was collected before it,
    but its own error keeps the result from being empty. *)
Theorem properties_verdict (p : properties.t Schema Regexp)
        (dataMap : list (string * JSON)) :
  properties.Validate p (JObject dataMap) = []
  ↔ ∀ entry, entry ∈ dataMap →
             forbidden p entry.1 = false ∧ key_errors p entry = [].
Proof.
  cbn [properties.Validate].
  induction dataMap as [|[k v] l IH] using rev_ind.
  - split; [|done]. intros _ entry Hin. by apply elem_of_nil in Hin.
  - rewrite fold_left_app. cbn [fold_left]. rewrite Validate_key_account.
    destruct (forbidden p k) eqn:Hf.
    + split; [done|]. intros Hall.
      destruct (Hall (k, v)) as [Hk _];
        [apply elem_of_app; right; apply elem_of_cons; by left|].
      cbn [fst] in Hk. congruence.
    + split.
      * intros [Hl Hk]%app_eq_nil entry [Hin|Hin]%elem_of_app.
        -- by apply IH.
        -- apply elem_of_cons in Hin as [->|Hin]; [done|].
           by apply elem_of_nil in Hin.
      * intros Hall. apply app_nil_intro.
        -- apply IH. intros entry Hin. apply Hall, elem_of_app. by left.
        -- apply (Hall (k, v)), elem_of_app. right. apply elem_of_cons. by left.
Qed.

(** X12: [patternProperties.Validate] reports, for every entry in the
    order of the range, the errors of the value under every pattern that
    matches the key; this is what [properties.Validate] reports when it
    holds the same patterns, names no property and has no
    [additionalProperties] restriction. *)
Theorem patternProperties_as_properties
        (pp : patternProperties.t Schema Regexp) (v : JSON) :
  patternProperties.Validate pp v = properties.Validate (only_patterns pp) v
  ∧ ∀ data, v = JObject data →
            patternProperties.Validate pp v
            = flat_map (entry_pattern_errors pp) data.
Proof.
  assert (∀ data, patternProperties.Validate pp (JObject data)
                  = flat_map (entry_pattern_errors pp) data) as Hclosed.
  { intros data. cbn [patternProperties.Validate].
    rewrite (fold_left_appends _ (entry_pattern_errors pp)); [done|].
    intros acc [k x]. unfold patternProperties.Validate_key,
      entry_pattern_errors. cbn [fst snd].
    generalize (patternProperties.object pp). intros l. revert acc.
    induction l as [|e l IH]; intros acc; cbn [fold_left List.filter flat_map].
    - by rewrite app_nil_r.
    - rewrite IH. destruct (regexp_MatchString (regexp e) k); [|done].
      cbn [flat_map]. by rewrite <- app_assoc. }
  split; [|by intros data ->].
  destruct v as [| | | | |data]; try done. rewrite Hclosed.
  cbn [properties.Validate]. rewrite Validate_loop_allowed.
  - cbn [app]. apply flat_map_ext. intros [k x].
    unfold key_errors, exact_errors, pattern_errors, matching_patterns,
      entry_pattern_errors, only_patterns.
    cbn [properties.object properties.patternProperties
         properties.additionalPropertiesObject fst snd].
    rewrite lookup_empty. cbn [app].
    by destruct (matched _ k); rewrite app_nil_r.
  - intros entry _. unfold forbidden, only_patterns.
    cbn [properties.additionalPropertiesObject
         properties.additionalPropertiesBool negb].
    apply andb_false_r.
Qed.
End PropertiesAccount.

(** ** The decoders of [patternProperties] and [properties] *)

Section PatternDecode.
Context {Schema : Type} `{!SchemaAPI Schema}.
Context {Regexp : Type} `{!RegexpAPI Regexp}.
Context `{!GoMap.RangeOrder}.

(** The loop of [patternProperties.UnmarshalJSON] appends one entry for
    each key up to the first that does not compile. *)
Lemma compile_entries_account (l : list (string * Schema))
      (p : patternProperties.t Schema Regexp) :
  ∃ compiled rest added,
    l = compiled ++ rest ∧
    Forall2 compiled_from compiled added ∧
    patternProperties.object (patternProperties.compile_entries l p).1
    = patternProperties.object p ++ added ∧
    match (patternProperties.compile_entries l p).2 with
    | None => rest = []
    | Some err =>
        ∃ key val rest', rest = (key, val) :: rest' ∧
                         regexp_Compile key = inr err
    end.
Proof.
  revert p. induction l as [|[k s] l IH]; intros p;
    cbn [patternProperties.compile_entries].
  - exists [], [], []. cbn [fst snd]. rewrite !app_nil_r.
    split; [done|]. split; [constructor|]. by split.
  - destruct (regexp_Compile k) as [r|err] eqn:Hk.
    + destruct (IH {| patternProperties.object :=
                       patternProperties.object p
                       ++ [Build_regexpToSchema r s] |})
        as (compiled & rest & added & -> & Hall & Hobj & Herr).
      exists ((k, s) :: compiled), rest, (Build_regexpToSchema r s :: added).
      split; [done|]. split; [by constructor|]. split; [|done].
      rewrite Hobj. cbn [patternProperties.object]. by rewrite <- app_assoc.
    + exists [], ((k, s) :: l), []. cbn [fst snd]. rewrite !app_nil_r.
      split; [done|]. split; [constructor|]. split; [done|]. by eauto.
Qed.

(** X13: [patternProperties.UnmarshalJSON] appends to the entries the
    receiver holds and never removes one.  Every appended entry is the
    compiled form of a key of the decoded object together with the schema
    of that key.  Without an error there is one appended entry for every
    key; with a compile error fewer entries than keys are appended, and
    the error is that of a key of the object.  When the object itself
    does not decode, the receiver is unchanged and the decoder's error is
    returned. *)
Theorem patternProperties_decode_appends (b : JSON)
        (p : patternProperties.t Schema Regexp) :
  match json.Unmarshal_map_val Schema_zero Schema_UnmarshalJSON
          "map[string]jsonschema.Schema" b with
  | inr err => patternProperties.UnmarshalJSON b p = (p, Some err)
  | inl m =>
      ∃ added,
        patternProperties.object (patternProperties.UnmarshalJSON b p).1
        = patternProperties.object p ++ added ∧
        (∀ e, e ∈ added →
              ∃ key, m !! key = Some (schema e) ∧
                     regexp_Compile key = inl (regexp e)) ∧
        match (patternProperties.UnmarshalJSON b p).2 with
        | None =>
            length added = size m ∧
            ∀ key s, m !! key = Some s →
                     ∃ e, e ∈ added ∧ schema e = s ∧
                          regexp_Compile key = inl (regexp e)
        | Some err =>
            length added < size m ∧
            ∃ key, is_Some (m !! key) ∧ regexp_Compile key = inr err
        end
  end.
Proof.
  unfold patternProperties.UnmarshalJSON.
  destruct (json.Unmarshal_map_val _ _ _ b) as [m|err]; [|done].
  destruct (compile_entries_account (GoMap.range m) p)
    as (compiled & rest & added & Hl & Hall & Hobj & Herr).
  assert (length (GoMap.range m) = size m) as Hsize.
  { rewrite (GoMap.range_perm _ m). apply length_map_to_list. }
  assert (length compiled = length added) as Hlen
      by (by apply Forall2_length in Hall).
  exists added. split; [done|]. split.
  - intros e He.
    apply list_elem_of_lookup in He as [i Hi].
    destruct (Forall2_lookup_r _ _ _ _ _ Hall Hi) as ([k s] & Hk & Hc & Hs).
    cbn [fst snd] in Hc, Hs. exists k. split; [|done]. rewrite Hs.
    apply range_lookup. rewrite Hl. apply elem_of_app. left.
    by apply list_elem_of_lookup_2 in Hk.
  - destruct ((patternProperties.compile_entries (GoMap.range m) p).2)
      as [err|].
    + destruct Herr as (key & val & rest' & -> & Hkey). split.
      * rewrite <- Hsize, Hl, length_app, <- Hlen. cbn [length]. lia.
      * exists key. split; [|done]. exists val. apply range_lookup.
        rewrite Hl. apply elem_of_app. right. apply elem_of_cons. by left.
    + subst rest. rewrite app_nil_r in Hl. split; [congruence|].
      intros key s Hm. apply range_lookup in Hm. rewrite Hl in Hm.
      apply list_elem_of_lookup in Hm as [i Hi].
      destruct (Forall2_lookup_l _ _ _ _ _ Hall Hi) as (e & He & Hc & Hs).
      cbn [fst snd] in Hc, Hs. exists e.
      split; [by apply list_elem_of_lookup_2 in He|done].
Qed.

(** What [json.Unmarshal] into a map that holds entries does to them. *)
Lemma members_into_account (l : list (string * JSON))
      (m : gmap string Schema) :
  (∀ k, k ∉ map fst l →
        (json.members_into Schema_zero Schema_UnmarshalJSON l m).1 !! k
        = m !! k)
  ∧ (∀ k, is_Some (m !! k) →
          is_Some ((json.members_into Schema_zero Schema_UnmarshalJSON l m).1
                   !! k))
  ∧ ((json.members_into Schema_zero Schema_UnmarshalJSON l m).2 = None
     ↔ ∀ k v, (k, v) ∈ l → (Schema_UnmarshalJSON v Schema_zero).2 = None)
  ∧ ((json.members_into Schema_zero Schema_UnmarshalJSON l m).2 = None →
     ∀ k, k ∈ map fst l →
          ∃ v s, (k, v) ∈ l ∧ Schema_UnmarshalJSON v Schema_zero = (s, None) ∧
                 (json.members_into Schema_zero Schema_UnmarshalJSON l m).1
                 !! k = Some s).
Proof.
  revert m. induction l as [|[k0 v0] l IH]; intros m;
    cbn [json.members_into map fst].
  - cbn [fst snd]. split; [done|]. split; [done|]. split.
    + split; [|done]. intros _ k v Hin. by apply elem_of_nil in Hin.
    + intros _ k Hin. by apply elem_of_nil in Hin.
  - destruct (Schema_UnmarshalJSON v0 Schema_zero) as [s0 [err|]] eqn:Hv0;
      cbn [fst snd].
    + split; [done|]. split; [done|]. split; [|done]. split; [done|].
      intros Hall.
      pose proof (Hall k0 v0 ltac:(apply elem_of_cons; by left)) as H0.
      by rewrite Hv0 in H0.
    + destruct (IH (<[k0 := s0]> m)) as (Hout & Hkeep & Herr & Hin).
      split; [|split; [|split]].
      * intros k [Hne Hk]%not_elem_of_cons.
        rewrite (Hout k Hk). by apply lookup_insert_ne.
      * intros k Hk. apply Hkeep. apply lookup_insert_is_Some.
        destruct (decide (k0 = k)); [by left|by right].
      * rewrite Herr. split.
        -- intros Hall k v [[= -> ->]|Hkv]%elem_of_cons.
           ++ by rewrite Hv0.
           ++ by apply (Hall k).
        -- intros Hall k v Hkv. apply (Hall k). apply elem_of_cons. by right.
      * intros Hnone k Hk.
        destruct (decide (k ∈ map fst l)) as [Hl|Hl].
        -- destruct (Hin Hnone k Hl) as (v & s & Hkv & Hdec & Hlook).
           exists v, s. split; [apply elem_of_cons; by right|done].
        -- apply elem_of_cons in Hk as [->|Hk]; [|done].
           exists v0, s0. split; [apply elem_of_cons; by left|].
           split; [done|]. rewrite (Hout k0 Hl). apply lookup_insert_eq.
Qed.

(** X14: [properties.UnmarshalJSON] decodes into the [object] field and
    leaves the other three fields alone.  [null] empties the map.  For an
    object, keys that are not members keep their schema, no key is lost,
    the call succeeds exactly when every member decodes as a schema, and
    then every member name maps to the schema decoded from one of its
    values.  Any other JSON value leaves the map as it is and is an
    error. *)
Theorem properties_decode_object (b : JSON)
        (p : properties.t Schema Regexp) :
  match properties.UnmarshalJSON b p with
  | (p', err) =>
      properties.patternProperties p' = properties.patternProperties p ∧
      properties.additionalPropertiesBool p'
      = properties.additionalPropertiesBool p ∧
      properties.additionalPropertiesObject p'
      = properties.additionalPropertiesObject p ∧
      match b with
      | JNull => properties.object p' = ∅ ∧ err = None
      | JObject members =>
          (∀ k, k ∉ map fst members →
                properties.object p' !! k = properties.object p !! k) ∧
          (∀ k, is_Some (properties.object p !! k) →
                is_Some (properties.object p' !! k)) ∧
          (err = None ↔
           ∀ k v, (k, v) ∈ members →
                  (Schema_UnmarshalJSON v Schema_zero).2 = None) ∧
          (err = None →
           ∀ k, k ∈ map fst members →
                ∃ v s, (k, v) ∈ members ∧
                       Schema_UnmarshalJSON v Schema_zero = (s, None) ∧
                       properties.object p' !! k = Some s)
      | _ => properties.object p' = properties.object p ∧ is_Some err
      end
  end.
Proof.
  unfold properties.UnmarshalJSON.
  destruct (json.Unmarshal_map_into Schema_zero Schema_UnmarshalJSON
              "map[string]jsonschema.Schema" b (properties.object p))
    as [object' err] eqn:Hdec.
  cbn [properties.object properties.patternProperties
       properties.additionalPropertiesBool
       properties.additionalPropertiesObject].
  split; [done|]. split; [done|]. split; [done|].
  destruct b as [| | | | |members]; cbn [json.Unmarshal_map_into] in Hdec;
    try (injection Hdec as <- <-; by eauto).
  pose proof (members_into_account members (properties.object p)) as Hacc.
  rewrite Hdec in Hacc. exact Hacc.
Qed.

(** X15: [properties.SetSchema] never returns an error and never
    touches [object].  Without a [patternProperties] neighbour the
    pointer stays as it is; [null] makes it nil; any other value is
    decoded by [patternProperties.UnmarshalJSON] into the validator
    pointed to (a new one when the pointer is nil), whose error is
    dropped: the pointer is set either way and the entries held before
    are still there. *)
Theorem properties_SetSchema_patterns (p : properties.t Schema Regexp)
        (v : gmap string JSON) :
  (properties.SetSchema p v).2 = None
  ∧ properties.object (properties.SetSchema p v).1 = properties.object p
  ∧ match v !! "patternProperties" with
    | None =>
        properties.patternProperties (properties.SetSchema p v).1
        = properties.patternProperties p
    | Some JNull =>
        properties.patternProperties (properties.SetSchema p v).1 = None
    | Some val =>
        ∃ pp added,
          properties.patternProperties (properties.SetSchema p v).1 = Some pp ∧
          pp = (patternProperties.UnmarshalJSON val
                  (default patternProperties.zero
                     (properties.patternProperties p))).1 ∧
          patternProperties.object pp
          = patternProperties.object
              (default patternProperties.zero (properties.patternProperties p))
            ++ added
    end.
Proof.
  assert (∀ val pp0, ∃ added,
            patternProperties.object
              (patternProperties.UnmarshalJSON val pp0).1
            = patternProperties.object pp0 ++ added) as Hprefix.
  { intros val pp0. unfold patternProperties.UnmarshalJSON.
    destruct (json.Unmarshal_map_val _ _ _ val) as [m|err].
    - destruct (compile_entries_account (GoMap.range m) pp0)
        as (_ & _ & added & _ & _ & Hobj & _). by exists added.
    - exists []. by rewrite app_nil_r. }
  unfold properties.SetSchema.
  destruct (v !! "additionalProperties") as [addVal|];
    [destruct (json.Unmarshal_bool addVal true) as [b0 e0]|];
    cbn [fst snd properties.object properties.patternProperties];
    (split; [done|]); (split; [done|]);
    (destruct (v !! "patternProperties") as [val|]; [|done]);
    (destruct val; cbn [json.Unmarshal_ptr fst]; try done;
     match goal with
     | |- context [patternProperties.UnmarshalJSON ?b ?pp0] =>
         destruct (Hprefix b pp0) as [added Hadded];
         destruct (patternProperties.UnmarshalJSON b pp0) as [pp e] eqn:Hpp;
         cbn [fst] in *; by exists pp, added
     end).
Qed.
End PatternDecode.

(** ** The traversal and the world *)

Section Offline.
Context {V : Type} `{!RefAPI V}.
Abbreviation Schema := (Schema V).
Abbreviation Node := (Node V Schema).
Abbreviation World := (World V).






(** X17: a failed load is not remembered.  For an absolute reference
    whose document is not cached, a failing [http.Get] gives the error
    "bad external url" and leaves the cache as it is, so that resolving
    the same reference again issues the request again; a body that
    [ParseWithCache] rejects gives "error parsing external doc", and
    [refToSchema] stores nothing under the key. *)
Theorem failed_fetch_not_cached (str : string) (rootSchema : Schema)
        (w : World) (url : URL) :
  url_Parse str = Some url → IsAbs url = true →
  Cache w !! cacheKey str url = None →
  (http_Get (fetched w) str = None →
   refToSchema str rootSchema true w
   = ((Some new_Schema, Some "bad external url"), after_request w str)
   ∧ ∀ rootSchema2,
       fetched (refToSchema str rootSchema2 true (after_request w str)).2
       = fetched w ++ [str; str])
  ∧ (∀ body err cache,
       http_Get (fetched w) str = Some body →
       ParseWithCache body true (Cache w) = (inr err, cache) →
       refToSchema str rootSchema true w
       = ((Some new_Schema, Some "error parsing external doc"),
          {| Cache := cache; fetched := fetched w ++ [str] |})).
Proof.
  intros Hurl Habs Hcache. unfold cacheKey in Hcache. split.
  - intros Hget. split.
    + unfold refToSchema. rewrite Hurl, Habs, Hcache. cbn [negb].
      by rewrite Hget.
    + intros rootSchema2. unfold refToSchema, after_request.
      rewrite Hurl, Habs. cbn [Cache fetched]. rewrite Hcache. cbn [negb].
      destruct (http_Get (fetched w ++ [str]) str) as [body|];
        [|by rewrite <- app_assoc].
      destruct (ParseWithCache body true (Cache w)) as [[s|err] cache];
        cbn [snd fetched]; by rewrite <- app_assoc.
  - intros body err cache Hget Hparse.
    unfold refToSchema. rewrite Hurl, Habs, Hcache. cbn [negb Cache fetched].
    by rewrite Hget, Hparse.
Qed.

Lemma hasRef_nodes_account (ns : list (string * Node)) :
  match hasRef_nodes ns with
  | Some r =>
      ∃ before k n after,
        ns = before ++ (k, n) :: after ∧ Validator_ n = ref r ∧
        no_ref_node before
  | None => no_ref_node ns
  end.
Proof.
  induction ns as [|[k n] ns IH]; cbn [hasRef_nodes].
  - intros k n Hin. by apply elem_of_nil in Hin.
  - destruct (Validator_ n) as [r|v] eqn:Hn.
    + exists [], k, n, ns. split; [done|]. split; [done|].
      intros k' n' Hin. by apply elem_of_nil in Hin.
    + destruct (hasRef_nodes ns) as [r|].
      * destruct IH as (before & k1 & n1 & after & -> & Hr & Hbefore).
        exists ((k, n) :: before), k1, n1, after.
        split; [done|]. split; [done|].
        intros k' n' [[= -> ->]|Hin]%elem_of_cons; [by eexists|].
        by apply (Hbefore k').
      * intros k' n' [[= -> ->]|Hin]%elem_of_cons; [by eexists|].
        by apply (IH k').
Qed.

(** X18: [hasRef] returns the reference string of the first node, in
    the order of the range, whose validator is a [*ref]: the nodes ranged
    before it hold other validators.  It reports no reference exactly
    when no node holds one, and [resolveSelf] then returns at once with
    the schema and the world unchanged. *)
Theorem hasRef_first_reference (s : Schema) :
  match hasRef s with
  | Some r =>
      ∃ before k n after,
        nodes s = before ++ (k, n) :: after ∧ Validator_ n = ref r ∧
        no_ref_node before
  | None =>
      no_ref_node (nodes s) ∧
      ∀ fuel rootSchema loadExternal w,
        resolveSelf (S fuel) rootSchema loadExternal s w = Done (s, w)
  end.
Proof.
  unfold hasRef. pose proof (hasRef_nodes_account (nodes s)) as H.
  destruct (hasRef_nodes (nodes s)) as [r|] eqn:Href; [done|].
  split; [done|]. intros fuel rootSchema loadExternal w.
  by apply resolveSelf_no_ref.
Qed.

Lemma resolveRefs_marked (fuel : nat) (loadExternal : bool) (s : Schema)
      (w : World) :
  resolved s = true → hasRef s = None →
  resolveRefs (S (S fuel)) loadExternal s w = Done (s, w).
Proof.
  intros Hr Href. unfold resolveRefs. rewrite resolveSelfAndBelow_S.
  rewrite resolveSelf_no_ref by done. rewrite bind_Done.
  unfold resolveBelow_with. by rewrite Hr.
Qed.

(** X19: resolving twice is resolving once.  On a tree without
    references [resolveRefs] returns a tree on which a second call,
    whatever [loadExternal] and the world are, returns at once with the
    same tree: the root's marker is set and the traversal stops
    there. *)
Theorem resolveRefs_twice (fuel : nat) (loadExternal : bool) (s : Schema)
        (w : World) :
  ref_free s = true → non_nil s = true → resolved_closed s = true →
  depth s < fuel →
  ∃ s1, resolveRefs fuel loadExternal s w = Done (s1, w)
        ∧ resolveRefs fuel loadExternal s1 w = Done (s1, w)
        ∧ ∀ loadExternal' w',
            resolveRefs fuel loadExternal' s1 w' = Done (s1, w').
Proof.
  intros Hrf Hnn Hcl Hd. exists (mark_all s).
  assert (resolveRefs fuel loadExternal s w = Done (mark_all s, w)) as H1.
  { unfold resolveRefs. rewrite resolve_ref_free by done.
    by rewrite mark_below_closed. }
  assert (∀ loadExternal' w',
            resolveRefs fuel loadExternal' (mark_all s) w'
            = Done (mark_all s, w')) as H2.
  { intros loadExternal' w'.
    destruct fuel as [|[|fuel]]; [lia|destruct s; cbn [depth] in Hd; lia|].
    apply resolveRefs_marked.
    - by destruct s.
    - destruct s as [ns r]. cbn [ref_free] in Hrf.
      apply andb_true_iff in Hrf as [Href _].
      unfold hasRef. cbn [mark_all nodes].
      destruct (hasRef_nodes ns) as [r'|] eqn:Hns; [done|].
      clear -Hns. unfold map_embedded.
      induction ns as [|[k n] ns IH]; [done|]. cbn [map hasRef_nodes] in *.
      cbn [Validator_ snd]. destruct (Validator_ n); [done|]. by apply IH. }
  split; [done|]. split; [apply H2|apply H2].
Qed.

Lemma forallb_pointwise {A : Type} (f g : A → bool) (l : list A) :
  (∀ x, f x = g x) → forallb f l = forallb g l.
Proof.
  intros H. induction l as [|x l IH]; [done|]. cbn [forallb].
  by rewrite H, IH.
Qed.

Lemma range_update_panic {A : Type} (f : A → World → outcome (A * World))
      (g : A → A) (bad : A → bool) (m : list (string * A)) (w : World) :
  (∀ k a, (k, a) ∈ m → f a w = if bad a then Panic else Done (g a, w)) →
  range_update f m w
  = if forallb (λ ka : string * A, negb (bad ka.2)) m
    then Done (map (λ ka : string * A, (ka.1, g ka.2)) m, w)
    else Panic.
Proof.
  induction m as [|[k a] m IH]; intros H; [done|].
  cbn [range_update forallb map fst snd].
  rewrite (H k a) by (apply elem_of_cons; by left).
  destruct (bad a); [done|]. rewrite bind_Done.
  rewrite IH by (intros k' a' Hin; apply (H k'), elem_of_cons; by right).
  cbn [negb andb]. by destruct (forallb _ m).
Qed.

Lemma resolve_ref_free_nil (fuel : nat) (rootSchema : Schema)
      (loadExternal : bool) :
  ∀ (s : Schema) (w : World),
    depth s < fuel → ref_free s = true →
    resolveSelfAndBelow fuel rootSchema loadExternal s w
    = if reaches_nil s then Panic else Done (mark_below s, w).
Proof.
  induction fuel as [|fuel IH]; intros [ns r] w Hd Hrf; [lia|].
  rewrite resolveSelfAndBelow_S.
  destruct fuel as [|fuel]; [cbn [depth] in Hd; lia|].
  cbn [ref_free] in Hrf. apply andb_true_iff in Hrf as [Href Hrf].
  rewrite resolveSelf_no_ref.
  2:{ unfold hasRef. simpl. by destruct (hasRef_nodes ns). }
  rewrite bind_Done. unfold resolveBelow_with.
  cbn [resolved mark_below reaches_nil].
  destruct r; [done|]. cbn [nodes negb andb].
  rewrite (range_update_panic _
             (λ n : Node, Build_Node
                (map (λ ko : string * option Schema,
                        (ko.1, mark_below <$> ko.2))
                     (EmbeddedSchemas n)) (Validator_ n))
             (λ n : Node,
                negb (forallb
                        (λ ko : string * option Schema,
                           match ko.2 with
                           | Some c => negb (reaches_nil c)
                           | None => false
                           end) (EmbeddedSchemas n)))).
  - unfold forall_embedded.
    rewrite (forallb_pointwise _
               (λ kn : string * Node,
                  forallb
                    (λ ko : string * option Schema,
                       match ko.2 with
                       | Some c => negb (reaches_nil c)
                       | None => false
                       end) (EmbeddedSchemas kn.2)))
      by (intros [k n]; apply negb_involutive).
    by destruct (forallb _ ns).
  - intros k n Hn.
    rewrite (range_update_panic _ (fmap mark_below)
               (λ o : option Schema,
                  match o with
                  | Some c => reaches_nil c
                  | None => true
                  end)).
    + rewrite (forallb_pointwise _
                 (λ ko : string * option Schema,
                    match ko.2 with
                    | Some c => negb (reaches_nil c)
                    | None => false
                    end)) by (by intros [k' [c|]]).
      by destruct (forallb _ (EmbeddedSchemas n)).
    + intros k' [c|] Ho; [|done].
      assert (embedded_in c ns) as Hc by (by exists k, n, k').
      rewrite IH.
      * by destruct (reaches_nil c).
      * pose proof (depth_embedded c ns false Hc). lia.
      * by eapply forall_embedded_Some in Hrf.
Qed.

(** X20: on a tree without references, [resolveRefs] panics exactly
    when the traversal comes to a nil pointer among the embedded schemas
    of a schema whose marker is not set, whatever the order of the
    ranges; otherwise it returns the tree with the markers set that the
    traversal passes. *)
Theorem nil_subschema_panics (fuel : nat) (loadExternal : bool)
        (s : Schema) (w : World) :
  ref_free s = true → depth s < fuel →
  resolveRefs fuel loadExternal s w
  = if reaches_nil s then Panic else Done (mark_below s, w).
Proof. intros Hrf Hd. by apply resolve_ref_free_nil. Qed.

Lemma resolveSelf_fixed_point (rootSchema : Schema) (loadExternal : bool)
      (s : Schema) (w : World) (str : string) :
  hasRef s = Some str →
  refToSchema str rootSchema loadExternal w = ((Some s, None), w) →
  ∀ fuel, resolveSelf fuel rootSchema loadExternal s w = OutOfFuel.
Proof.
  intros Href Hto fuel. induction fuel as [|fuel IH]; [done|].
  cbn [resolveSelf]. by rewrite Href, Hto.
Qed.

Lemma refToSchema_local_root (str : string) (rootSchema : Schema)
      (loadExternal : bool) (w : World) :
  is_local str → trim_ref str = "" →
  refToSchema str rootSchema loadExternal w = ((Some rootSchema, None), w).
Proof.
  intros Hlocal Htrim.
  assert (refToSchema_local str rootSchema = (Some rootSchema, None)) as H
      by (unfold refToSchema_local; by rewrite Htrim).
  unfold refToSchema.
  destruct Hlocal as [->|(url & -> & ->)]; by rewrite H.
Qed.

(** X21: a schema whose reference resolves to the schema itself is
    never resolved: [resolveSelf] takes the target's value, finds the
    same reference and starts over, so neither it nor
    [resolveSelfAndBelow] returns, however much fuel the model is given.
    In particular [resolveRefs] does not return on a root whose reference
    is local and empty once trimmed, such as "#". *)
Theorem self_reference_never_returns (fuel : nat) (loadExternal : bool)
        (s : Schema) (w : World) (str : string) :
  hasRef s = Some str →
  (∀ rootSchema,
     refToSchema str rootSchema loadExternal w = ((Some s, None), w) →
     resolveSelf fuel rootSchema loadExternal s w = OutOfFuel
     ∧ resolveSelfAndBelow fuel rootSchema loadExternal s w = OutOfFuel)
  ∧ (is_local str → trim_ref str = "" →
     resolveRefs fuel loadExternal s w = OutOfFuel).
Proof.
  intros Href.
  assert (∀ rootSchema,
            refToSchema str rootSchema loadExternal w = ((Some s, None), w) →
            resolveSelf fuel rootSchema loadExternal s w = OutOfFuel
            ∧ resolveSelfAndBelow fuel rootSchema loadExternal s w
              = OutOfFuel) as H.
  { intros rootSchema Hto.
    split; [by eapply resolveSelf_fixed_point|].
    destruct fuel as [|fuel]; [done|]. rewrite resolveSelfAndBelow_S.
    by rewrite (resolveSelf_fixed_point rootSchema loadExternal s w str). }
  split; [exact H|]. intros Hlocal Htrim. unfold resolveRefs.
  apply H. by apply refToSchema_local_root.
Qed.
End Offline.

(** ** Pointers and decoded embedded schemas *)

Section SplitFacts.
Import GoStrings.

Lemma append_nil_l (s : string) : "" +:+ s = s.
Proof. reflexivity. Qed.

Lemma append_cons (c : ascii) (s t : string) :
  String c s +:+ t = String c (s +:+ t).
Proof. reflexivity. Qed.

Lemma Split_length (s : string) (sep : ascii) :
  length (Split s sep) = S (count_byte sep s).
Proof.
  induction s as [|c s IH]; [done|]. cbn [Split count_byte].
  destruct (Ascii.eqb c sep); cbn [length]; [by rewrite IH|].
  destruct (Split s sep); cbn [length] in *; lia.
Qed.

Lemma Split_plain (s : string) (sep : ascii) :
  count_byte sep s = 0 → Split s sep = [s].
Proof.
  induction s as [|c s IH]; [done|]. cbn [Split count_byte].
  destruct (Ascii.eqb c sep); [done|]. intros H. by rewrite IH.
Qed.

Lemma Split_app (k1 r : string) (sep : ascii) :
  count_byte sep k1 = 0 →
  Split (k1 +:+ String sep r) sep = k1 :: Split r sep.
Proof.
  induction k1 as [|c k1 IH];
    rewrite ?append_nil_l, ?append_cons; cbn [Split count_byte].
  - by rewrite Ascii.eqb_refl.
  - destruct (Ascii.eqb c sep); [done|]. intros H. by rewrite IH.
Qed.

Lemma count_byte_app (c : ascii) (s1 s2 : string) :
  count_byte c (s1 +:+ s2) = count_byte c s1 + count_byte c s2.
Proof.
  induction s1 as [|d s1 IH]; [done|].
  rewrite append_cons. cbn [count_byte]. rewrite IH. lia.
Qed.

Lemma Replace_plain (s : string) :
  count_byte "~" s = 0 → count_byte "%" s = 0 → Replace unescape s = s.
Proof.
  induction s as [|c s IH]; [done|]. cbn [count_byte].
  destruct (Ascii.eqb_spec c "~") as [->|Hn1]; [done|].
  destruct (Ascii.eqb_spec c "%") as [->|Hn2]; [done|].
  intros H1 H2. rewrite Replace_miss.
  - by rewrite IH.
  - unfold unescape. cbn [lookup].
    rewrite !HasPrefix_ne by congruence. done.
Qed.

Lemma substring_all (s : string) : substring 0 (String.length s) s = s.
Proof. induction s as [|c s IH]; [done|]. cbn. by rewrite IH. Qed.

Lemma trim_ref_pointer (r : string) :
  trim_ref (String "#" (String "/" r)) = r.
Proof.
  unfold trim_ref, TrimPrefix.
  rewrite HasPrefix_cons, HasPrefix_nil. cbn [Ascii.eqb Bool.eqb andb].
  cbn [String.length Nat.sub substring].
  rewrite substring_all.
  rewrite HasPrefix_cons, HasPrefix_nil. cbn [Ascii.eqb Bool.eqb andb].
  cbn [String.length Nat.sub substring].
  by rewrite Nat.sub_0_r, substring_all.
Qed.
End SplitFacts.

Section Pointers.
Context {V : Type} `{!RefAPI V}.
Abbreviation Schema := (Schema V).
Abbreviation World := (World V).

(** X22: a pointer of more than two segments is never resolved.  When
    the reference string, trimmed of its leading "#" and "/", still holds
    two separators, [refToSchema] fails with "failed to resolve" and the
    trimmed string, whatever the root document holds, and [resolveSelf]
    leaves the schema with its reference. *)
Theorem deep_pointer_fails (str : string) (rootSchema : Schema)
        (loadExternal : bool) (w : World) :
  2 ≤ count_byte "/" (trim_ref str) →
  refToSchema_local str rootSchema = failed_to_resolve (trim_ref str)
  ∧ (is_local str →
     refToSchema str rootSchema loadExternal w
     = (failed_to_resolve (trim_ref str), w)
     ∧ ∀ fuel s,
         hasRef s = Some str →
         resolveSelf (S fuel) rootSchema loadExternal s w = Done (s, w)).
Proof.
  intros Hdeep.
  assert (refToSchema_local str rootSchema = failed_to_resolve (trim_ref str))
    as Hlocal.
  { unfold refToSchema_local, resolveLocalPath, failed_to_resolve, split_ref.
    rewrite length_map, Split_length.
    destruct (count_byte "/" (trim_ref str)) as [|[|n]]; [lia|lia|done]. }
  split; [done|]. intros Hl.
  assert (refToSchema str rootSchema loadExternal w
          = (failed_to_resolve (trim_ref str), w)) as Hto.
  { unfold refToSchema.
    destruct Hl as [->|(url & -> & ->)]; by rewrite Hlocal. }
  split; [done|]. intros fuel s Href. cbn [resolveSelf].
  by rewrite Href, Hto.
Qed.

(** X23: for segments that hold no "/", "~" or "%", the reference
    "#/k1" is looked up as the one segment [k1] and "#/k1/k2" as the two
    segments [k1], [k2]: when keyword [k1] of the root embeds a schema
    under [k2], that schema is the result. *)
Theorem plain_pointer_resolves (rootSchema : Schema) (k1 k2 : string) :
  plain_segment k1 = true → plain_segment k2 = true →
  refToSchema_local ("#/" +:+ k1) rootSchema
  = resolveLocalPath [k1] rootSchema k1
  ∧ refToSchema_local ("#/" +:+ k1 +:+ "/" +:+ k2) rootSchema
    = resolveLocalPath [k1; k2] rootSchema (k1 +:+ "/" +:+ k2)
  ∧ ∀ v s,
      GoMap.get k1 (nodes rootSchema) = Some v →
      GoMap.get k2 (EmbeddedSchemas v) = Some s →
      refToSchema_local ("#/" +:+ k1 +:+ "/" +:+ k2) rootSchema = (s, None).
Proof.
  unfold plain_segment.
  intros [[Hs1 Ht1]%andb_true_iff Hp1]%andb_true_iff.
  intros [[Hs2 Ht2]%andb_true_iff Hp2]%andb_true_iff.
  apply Nat.eqb_eq in Hs1, Ht1, Hp1, Hs2, Ht2, Hp2.
  assert (refToSchema_local ("#/" +:+ k1 +:+ "/" +:+ k2) rootSchema
          = resolveLocalPath [k1; k2] rootSchema (k1 +:+ "/" +:+ k2)) as H2.
  { unfold refToSchema_local. rewrite !append_cons, append_nil_l.
    rewrite trim_ref_pointer. unfold split_ref.
    rewrite Split_app, Split_plain by done. cbn [map].
    by rewrite !Replace_plain. }
  split; [|split; [exact H2|]].
  - unfold refToSchema_local. rewrite !append_cons, append_nil_l.
    rewrite trim_ref_pointer. unfold split_ref.
    rewrite Split_plain by done. cbn [map]. by rewrite Replace_plain.
  - intros v s Hv Hs. rewrite H2. unfold resolveLocalPath.
    cbn [length nth]. by rewrite Hv, Hs.
Qed.
End Pointers.

Section AssocFold.
Context {A B : Type}.

Lemma get_set_eq (k : string) (a : A) (m : list (string * A)) :
  GoMap.get k (GoMap.set k a m) = Some a.
Proof.
  induction m as [|[k' a'] m IH]; cbn [GoMap.set GoMap.get].
  - by rewrite String.eqb_refl.
  - destruct (String.eqb_spec k k') as [->|Hne]; cbn [GoMap.get].
    + by rewrite String.eqb_refl.
    + apply String.eqb_neq in Hne. by rewrite Hne.
Qed.

Lemma get_set_ne (k k' : string) (a : A) (m : list (string * A)) :
  k ≠ k' → GoMap.get k (GoMap.set k' a m) = GoMap.get k m.
Proof.
  intros Hne. induction m as [|[k0 a0] m IH]; cbn [GoMap.set GoMap.get].
  - apply String.eqb_neq in Hne. by rewrite Hne.
  - destruct (String.eqb_spec k' k0) as [->|Hne0]; cbn [GoMap.get].
    + apply String.eqb_neq in Hne. by rewrite Hne.
    + by rewrite IH.
Qed.

Lemma fold_set_get_other (f : list (string * A) → B → list (string * A))
      (key : B → string) (val : B → A) (l : list B) (e : list (string * A))
      (k : string) :
  (∀ e b, f e b = GoMap.set (key b) (val b) e) →
  (∀ b, b ∈ l → key b ≠ k) →
  GoMap.get k (fold_left f l e) = GoMap.get k e.
Proof.
  intros Hf. revert e. induction l as [|b l IH]; intros e Hk; [done|].
  cbn [fold_left]. rewrite IH, Hf.
  - apply get_set_ne. intros Heq. apply (Hk b); [apply elem_of_cons; by left|done].
  - intros b' Hb'. apply Hk. apply elem_of_cons. by right.
Qed.

Lemma fold_set_get_unique (f : list (string * A) → B → list (string * A))
      (key : B → string) (val : B → A) (l : list B) (e : list (string * A))
      (b : B) :
  (∀ e b, f e b = GoMap.set (key b) (val b) e) →
  b ∈ l → (∀ b', b' ∈ l → key b' = key b → val b' = val b) →
  GoMap.get (key b) (fold_left f l e) = Some (val b).
Proof.
  intros Hf. induction l as [|x l IH] using rev_ind; intros Hb Hsame.
  - by apply elem_of_nil in Hb.
  - rewrite fold_left_app. cbn [fold_left]. rewrite Hf.
    destruct (decide (key x = key b)) as [Heq|Hne].
    + rewrite <- Heq, get_set_eq. f_equal. apply Hsame; [|done].
      apply elem_of_app. right. apply elem_of_cons. by left.
    + rewrite get_set_ne by done.
      apply elem_of_app in Hb as [Hb|Hb].
      * apply IH; [done|]. intros b' Hb'. apply Hsame, elem_of_app. by left.
      * apply elem_of_cons in Hb as [->|Hb]; [done|by apply elem_of_nil in Hb].
Qed.
End AssocFold.

Section ItoaFacts.
Lemma ParseUint_Itoa_nat (i : nat) :
  strconv.ParseUint (Itoa (Z.of_nat i)) = Some (Z.of_nat i).
Proof.
  unfold Itoa. destruct (Z.of_nat i) as [|p|p] eqn:Hi; [done| |lia].
  cbn [Z.to_int NilZero.string_of_int]. apply ParseUint_to_uint.
Qed.

Lemma Itoa_nat_inj (i j : nat) :
  Itoa (Z.of_nat i) = Itoa (Z.of_nat j) → i = j.
Proof.
  intros H. pose proof (ParseUint_Itoa_nat i) as Hi.
  rewrite H, ParseUint_Itoa_nat in Hi. injection Hi. lia.
Qed.

Lemma Itoa_nat_nonempty (i : nat) : Itoa (Z.of_nat i) ≠ "".
Proof.
  intros H. pose proof (ParseUint_Itoa_nat i) as Hi. by rewrite H in Hi.
Qed.
End ItoaFacts.

Section DecodedValues.
Context {V : Type} `{!RefAPI V} `{!GoMap.RangeOrder}.

(** X24: what [EmbeddedSchemas.UnmarshalJSON] stores.  When the value
    decodes as one schema, the key "" holds it, also when the value is an
    object with a member named "".  Every other member of a decoded
    object is held under its name, and the element [i] of a decoded
    array under the decimal form of [i]; a [null] element is held as a
    nil pointer. *)
Theorem EmbeddedSchemas_values (b : JSON) :
  (∀ s, single_attempt b = (s, None) →
        GoMap.get "" (EmbeddedSchemas_UnmarshalJSON b).1 = Some (Some s))
  ∧ (∀ m k o,
       object_attempt b = inl m → m !! k = Some o →
       k ≠ "" ∨ is_Some (single_attempt b).2 →
       GoMap.get k (EmbeddedSchemas_UnmarshalJSON b).1 = Some o)
  ∧ (∀ schemas i o,
       array_attempt b = inl schemas → schemas !! i = Some o →
       GoMap.get (Itoa (Z.of_nat i)) (EmbeddedSchemas_UnmarshalJSON b).1
       = Some o).
Proof.
  destruct (UnmarshalJSON_steps b) as [-> _].
  unfold EmbeddedSchemas_UnmarshalSingle, EmbeddedSchemas_UnmarshalObject,
    EmbeddedSchemas_UnmarshalArray.
  fold (single_attempt b) (object_attempt b) (array_attempt b).
  split; [|split].
  - intros s ->. cbn [fst]. apply get_set_eq.
  - intros m k o Hm Hk Hne. rewrite Hm. cbn [fst].
    assert (GoMap.get k
              (fold_left (λ e '(k, v), GoMap.set k v e) (GoMap.range m)
                 (match array_attempt b with
                  | inl schemas =>
                      (fold_left
                         (λ e '(i, v), GoMap.set (Itoa (Z.of_nat i)) v e)
                         (imap (λ i v, (i, v)) schemas) [], None)
                  | inr err => ([], Some err)
                  end).1)
            = Some o) as Hget.
    { apply (fold_set_get_unique _ fst snd _ _ (k, o)).
      - by intros e [? ?].
      - by apply range_lookup.
      - intros [k' o'] Hin Heq. cbn [fst snd] in *. subst k'.
        apply range_lookup in Hin. congruence. }
    destruct (single_attempt b) as [s [err|]]; cbn [fst snd] in *; [done|].
    destruct Hne as [Hne|[? ?]]; [|done]. by rewrite get_set_ne.
  - intros schemas i o Hs Hi. rewrite Hs. cbn [fst].
    assert (∃ l, b = JArray l) as [l ->].
    { unfold array_attempt, json.Unmarshal_slice_ptr in Hs.
      destruct b; try done; [|by eexists].
      injection Hs as <-. by rewrite lookup_nil in Hi. }
    assert (object_attempt (JArray l)
            = inr (json.UnmarshalTypeError (JArray l)
                     "map[string]*jsonschema.Schema")) as -> by done.
    cbn [fst].
    assert (GoMap.get (Itoa (Z.of_nat i))
              (fold_left
                 (λ e '(i, v), GoMap.set (Itoa (Z.of_nat i)) v e)
                 (imap (λ i v, (i, v)) schemas) [])
            = Some o) as Hget.
    { apply (fold_set_get_unique _ (λ iv : nat * option (Schema V),
                                       Itoa (Z.of_nat iv.1)) snd _ _ (i, o)).
      - by intros e [? ?].
      - apply elem_of_lookup_imap. by exists i, o.
      - intros [j o'] Hin Heq. cbn [fst snd] in *.
        apply Itoa_nat_inj in Heq. subst j.
        apply elem_of_lookup_imap in Hin as (i' & o'' & [= -> ->] & Hl).
        congruence. }
    destruct (single_attempt (JArray l)) as [s [err|]]; cbn [fst snd];
      [done|].
    rewrite get_set_ne; [done|]. apply Itoa_nat_nonempty.
Qed.
End DecodedValues.

(** ** What [resolveSelf] returns *)

Section Targets.
Context {V : Type} `{!RefAPI V}.
Abbreviation Schema := (Schema V).
Abbreviation World := (World V).

(** X25: what [resolveSelf] leaves behind.  When it returns, the schema
    either carries no reference or carries one whose resolution has just
    failed.  A schema whose reference resolves to a schema without a
    reference takes the value of that schema, and the world is the one
    the resolution left.  A reference that resolves to a nil pointer, an
    embedded [null], makes the call panic. *)
Theorem resolveSelf_result (fuel : nat) (rootSchema : Schema)
        (loadExternal : bool) (s : Schema) (w : World) :
  (∀ s' w',
     resolveSelf fuel rootSchema loadExternal s w = Done (s', w') →
     hasRef s' = None
     ∨ ∃ str w0 sch err,
         hasRef s' = Some str ∧
         refToSchema str rootSchema loadExternal w0 = ((sch, Some err), w'))
  ∧ (∀ str sch w1,
       hasRef s = Some str →
       refToSchema str rootSchema loadExternal w = ((Some sch, None), w1) →
       hasRef sch = None →
       resolveSelf (S (S fuel)) rootSchema loadExternal s w = Done (sch, w1))
  ∧ (∀ str w1,
       hasRef s = Some str →
       refToSchema str rootSchema loadExternal w = ((None, None), w1) →
       resolveSelf (S fuel) rootSchema loadExternal s w = Panic).
Proof.
  split; [|split].
  - revert s w. induction fuel as [|fuel IH]; intros s w s' w';
      cbn [resolveSelf]; [done|].
    destruct (hasRef s) as [str|] eqn:Href.
    + destruct (refToSchema str rootSchema loadExternal w)
        as [[sch err] w1] eqn:Hto.
      destruct sch as [sch|], err as [err|].
      * intros [= <- <-]. right. by exists str, w, (Some sch), err.
      * apply IH.
      * intros [= <- <-]. right. by exists str, w, None, err.
      * done.
    + intros [= <- <-]. by left.
  - intros str sch w1 Href Hto Hsch. cbn [resolveSelf].
    by rewrite Href, Hto, Hsch.
  - intros str w1 Href Hto. cbn [resolveSelf]. by rewrite Href, Hto.
Qed.
End Targets.

(** ** The further statements at concrete inputs *)

Lemma maxProperties_decodes_bound_witness :
  (0 ≤ 2 < 2 ^ 63)%Z ∧
  maxProperties.UnmarshalJSON (JNumber (Itoa 2)) 7%Z = (2%Z, None).
Proof.
  split; [lia|].
  destruct (maxProperties_decodes_bound (JNumber "2") 7%Z) as (_ & H & _).
  apply (H 2%Z). lia.
Defined.

Lemma maxProperties_enforced_witness :
  maxProperties.UnmarshalJSON (JNumber "1") 0%Z = (1%Z, None) ∧
  (maxProperties.Validate 1%Z (JObject [("a", JNull); ("b", JNull)]) = []
   ↔ (Z.of_nat 2 ≤ 1)%Z).
Proof.
  split; [reflexivity|].
  apply (maxProperties_enforced (JNumber "1") 0%Z 1%Z
           [("a", JNull); ("b", JNull)] eq_refl).
Defined.

Lemma minProperties_enforced_witness :
  (0 ≤ 2 < 2 ^ 63)%Z ∧
  minProperties.UnmarshalJSON (JNumber (Itoa 2)) 7%Z = (2%Z, None).
Proof.
  split; [lia|].
  destruct (minProperties_enforced (JNumber "2") 7%Z) as (_ & H & _).
  apply (H 2%Z). lia.
Defined.

Lemma required_reports_missing_witness :
  "b" ∈ ["a"; "b"] ∧ ("b" ∉ GoMap.keys [("a", JNumber "1")]) ∧
  required_error "b"
  ∈ required.Validate ["a"; "b"] (JObject [("a", JNumber "1")]).
Proof.
  assert ("b" ∈ ["a"; "b"]) as Hin by (apply elem_of_cons; right; apply elem_of_cons; by left).
  assert ("b" ∉ GoMap.keys [("a", JNumber "1")]) as Hout.
  { intros [H|H]%elem_of_cons; [discriminate H|by apply elem_of_nil in H]. }
  split; [exact Hin|]. split; [exact Hout|].
  destruct (required_reports_missing ["a"; "b"] [("a", JNumber "1")])
    as (_ & _ & H).
  exact (H "b" Hin Hout).
Defined.

Lemma dependencies_valid_iff_witness :
  @dependencies.Validate _ Examples.schema_api
    {| dependencies.schemaDeps := [];
       dependencies.propertyDeps := [("credit_card", ["billing_address"])] |}
    (JObject []) = [].
Proof.
  destruct (@dependencies_valid_iff _ Examples.schema_api
              {| dependencies.schemaDeps := [];
                 dependencies.propertyDeps :=
                   [("credit_card", ["billing_address"])] |} [])
    as [_ H].
  apply H; intros key Hkey Hin; by apply elem_of_nil in Hin.
Defined.

Lemma dependencies_property_errors_witness :
  "credit_card" ∈ GoMap.keys [("credit_card", JNumber "1")] ∧
  @dependencies.Validate _ Examples.schema_api
    {| dependencies.schemaDeps := [];
       dependencies.propertyDeps := [("credit_card", ["billing_address"])] |}
    (JObject [("credit_card", JNumber "1")])
  = [dependency_error "billing_address"].
Proof.
  assert ("credit_card" ∈ GoMap.keys [("credit_card", JNumber "1")]) as Hin
      by (apply elem_of_cons; by left).
  split; [exact Hin|].
  apply (@dependencies_property_errors _ Examples.schema_api
           "credit_card" ["billing_address"]
           [("credit_card", JNumber "1")] Hin).
Defined.

Lemma dependencies_decoded_witness :
  json.Unmarshal_raw_map
    (JObject [("credit_card", JArray [JString "billing_address"])])
  = inl {[ "credit_card" := JArray [JString "billing_address"] ]} ∧
  ∃ set,
    GoMap.get "credit_card"
      (dependencies.propertyDeps
         (@dependencies.UnmarshalJSON _ Examples.schema_api
            Examples.sorted_range
            (JObject [("credit_card", JArray [JString "billing_address"])])
            {| dependencies.schemaDeps := [];
               dependencies.propertyDeps := [] |}).1) = Some set ∧
    NoDup set ∧ ∀ a, a ∈ set ↔ a ∈ ["billing_address"].
Proof.
  assert (json.Unmarshal_raw_map
            (JObject [("credit_card", JArray [JString "billing_address"])])
          = inl {[ "credit_card" := JArray [JString "billing_address"] ]})
    as Hc by (vm_compute; reflexivity).
  split; [exact Hc|].
  destruct (@dependencies_decoded _ Examples.schema_api Examples.sorted_range
              (JObject [("credit_card", JArray [JString "billing_address"])])
              {| dependencies.schemaDeps := []; dependencies.propertyDeps := [] |}
              {[ "credit_card" := JArray [JString "billing_address"] ]}
              Hc) as (_ & H & _).
  apply (H "credit_card" (JArray [JString "billing_address"])).
  - vm_compute; reflexivity.
  - reflexivity.
Defined.

Lemma properties_accumulates_witness :
  @properties.Validate _ Examples.schema_api _ Examples.regexp_api
    FurtherExamples.open_properties (JObject [("a", JNull); ("b", JNull)])
  = flat_map (@key_errors _ Examples.schema_api _ Examples.regexp_api
                FurtherExamples.open_properties)
             [("a", JNull); ("b", JNull)].
Proof.
  apply (@properties_accumulates _ Examples.schema_api _ Examples.regexp_api).
  intros entry _. unfold forbidden, FurtherExamples.open_properties.
  cbn [properties.additionalPropertiesObject
       properties.additionalPropertiesBool negb].
  apply andb_false_r.
Defined.

Lemma properties_last_forbidden_witness :
  @forbidden _ _ Examples.regexp_api FurtherExamples.closed_properties "b"
  = true ∧
  @properties.Validate _ Examples.schema_api _ Examples.regexp_api
    FurtherExamples.closed_properties (JObject [("a", JNull); ("b", JNull)])
  = [not_allowed].
Proof.
  assert (@forbidden _ _ Examples.regexp_api
            FurtherExamples.closed_properties "b" = true) as Hf.
  { unfold forbidden, matched, matching_patterns,
      FurtherExamples.closed_properties.
    cbn [properties.object properties.patternProperties
         properties.additionalPropertiesObject
         properties.additionalPropertiesBool].
    by rewrite lookup_empty. }
  split; [exact Hf|].
  apply (@properties_last_forbidden _ Examples.schema_api _ Examples.regexp_api
           FurtherExamples.closed_properties [("a", JNull)] [] "b" JNull Hf).
  intros entry Hin. by apply elem_of_nil in Hin.
Defined.

Lemma failed_fetch_not_cached_witness :
  @url_Parse _ Examples.ref_api "http://example.org/x.json#/a"
  = Some {| Scheme := "http"; Fragment := "/a" |} ∧
  @refToSchema _ Examples.ref_api "http://example.org/x.json#/a"
    Examples.document true Examples.empty_world
  = ((Some new_Schema, Some "bad external url"),
     after_request Examples.empty_world "http://example.org/x.json#/a").
Proof.
  assert (@url_Parse _ Examples.ref_api "http://example.org/x.json#/a"
          = Some {| Scheme := "http"; Fragment := "/a" |}) as Hurl
      by (vm_compute; reflexivity).
  split; [exact Hurl|].
  destruct (@failed_fetch_not_cached _ Examples.ref_api
              "http://example.org/x.json#/a" Examples.document
              Examples.empty_world {| Scheme := "http"; Fragment := "/a" |}
              Hurl eq_refl (lookup_empty _)) as [H _].
  apply H. vm_compute; reflexivity.
Defined.

Lemma resolveRefs_twice_witness :
  ∃ s1,
    @resolveRefs _ Examples.ref_api 3 true Examples.plain_tree
      Examples.empty_world = Done (s1, Examples.empty_world)
    ∧ @resolveRefs _ Examples.ref_api 3 true s1 Examples.empty_world
      = Done (s1, Examples.empty_world)
    ∧ ∀ loadExternal' w',
        @resolveRefs _ Examples.ref_api 3 loadExternal' s1 w' = Done (s1, w').
Proof.
  apply (@resolveRefs_twice _ Examples.ref_api 3 true Examples.plain_tree
           Examples.empty_world eq_refl eq_refl eq_refl).
  vm_compute. lia.
Defined.

Lemma nil_subschema_panics_witness :
  @resolveRefs _ Examples.ref_api 3 false FurtherExamples.nil_tree
    Examples.empty_world = Panic.
Proof.
  refine (@nil_subschema_panics _ Examples.ref_api 3 false
            FurtherExamples.nil_tree Examples.empty_world eq_refl _).
  vm_compute. lia.
Defined.

Lemma self_reference_never_returns_witness :
  hasRef FurtherExamples.self_ref = Some "#" ∧
  @resolveRefs _ Examples.ref_api 1000 true FurtherExamples.self_ref
    Examples.empty_world = OutOfFuel.
Proof.
  split; [reflexivity|].
  destruct (@self_reference_never_returns _ Examples.ref_api 1000 true
              FurtherExamples.self_ref Examples.empty_world "#" eq_refl)
    as [_ H].
  apply H; [|reflexivity].
  right. exists {| Scheme := ""; Fragment := "" |}. by split.
Defined.

Lemma deep_pointer_fails_witness :
  count_byte "/" (trim_ref "#/properties/a/properties/b") = 3 ∧
  @refToSchema_local unit "#/properties/a/properties/b" Examples.document
  = failed_to_resolve "properties/a/properties/b".
Proof.
  split; [reflexivity|].
  destruct (@deep_pointer_fails _ Examples.ref_api
              "#/properties/a/properties/b" Examples.document true
              Examples.empty_world) as [H _]; [|exact H].
  vm_compute. lia.
Defined.

Lemma plain_pointer_resolves_witness :
  plain_segment "definitions" = true ∧ plain_segment "a" = true ∧
  @refToSchema_local unit "#/definitions/a" Examples.document
  = (Some (Build_Schema [] false), None).
Proof.
  split; [reflexivity|]. split; [reflexivity|].
  destruct (@plain_pointer_resolves unit Examples.document "definitions" "a"
              eq_refl eq_refl) as (_ & _ & H).
  apply (H (Build_Node [("a", Some (Build_Schema [] false))] (other tt)));
    reflexivity.
Defined.

Lemma EmbeddedSchemas_values_witness :
  @array_attempt _ Examples.ref_api (JArray [JObject []; JNull])
  = inl [Some (Build_Schema [] false); None] ∧
  GoMap.get (Itoa 1)
    (@EmbeddedSchemas_UnmarshalJSON _ Examples.ref_api Examples.sorted_range
       (JArray [JObject []; JNull])).1 = Some None.
Proof.
  split; [reflexivity|].
  destruct (@EmbeddedSchemas_values _ Examples.ref_api Examples.sorted_range
              (JArray [JObject []; JNull])) as (_ & _ & H).
  apply (H [Some (Build_Schema [] false); None] 1 None); reflexivity.
Defined.

Lemma resolveSelf_result_witness :
  @resolveSelf _ Examples.ref_api 2 Examples.document true
    TargetExample.local_ref Examples.empty_world
  = Done (Build_Schema [] false, Examples.empty_world).
Proof.
  destruct (@resolveSelf_result _ Examples.ref_api 0 Examples.document true
              TargetExample.local_ref Examples.empty_world) as (_ & H & _).
  apply (H "#/definitions/a"); reflexivity.
Defined.
